(** * Error classification and dispatch: package [errors] of go-utils

    A shallow embedding of [errors/handler.go] together with the parts of
    the Go runtime and standard library the file calls ([errors.Is],
    [errors.As], [reflect.TypeOf], [reflect.New], [fmt.Sprintf]), followed
    by the properties of the dispatcher.

    Conventions of the embedding.
    - A Go interface value of type [error] is an [option Err]: [None] is
      [nil], [Some e] a value with a dynamic type.
    - A Go function that may panic returns an [Outcome]; the dispatcher
      itself runs in [Exec], which carries in addition the log of the
      matchers the loop examined and of the handlers it called, in program
      order.
    - The operator [==], which [errors.Is] applies to an element of the
      chain and its target, works on the contents of the two values and
      panics where Go's does: on a value of a type that is not comparable
      behind an interface.
    - Methods of error values and caller-supplied handlers are total and
      without effects of their own, apart from a panic of a handler; error
      chains are finite trees. *)

From Stdlib Require Import String List ZArith Bool Lia Permutation Arith.
From Equations Require Import Equations.
Import ListNotations.
Open Scope string_scope.

(* ===================================================================== *)
(** ** Go values *)
(* ===================================================================== *)

(** A concrete (non-interface) Go type, as [reflect] sees it: its printed
    name ([%T]) and whether values of the type may be compared with [==]
    ([reflect.Type.Comparable]). *)
Record GoType : Type := MkType {
  type_name : string;
  type_comparable : bool
}.

Definition GoType_eqb (a b : GoType) : bool :=
  String.eqb (type_name a) (type_name b)
  && Bool.eqb (type_comparable a) (type_comparable b).

(** The type a pointer handed to [errors.As] points to: a concrete type or
    an interface type, the latter given by the concrete types that
    implement it. *)
Inductive TargetType : Type :=
| ConcreteTarget (ty : GoType)
| InterfaceTarget (implemented_by : GoType -> bool).

(** The contents of a value, as [==] looks at them: a boolean, a number,
    a string, a pointer or a channel, which is compared in one step and
    stands here as a code; a floating-point value that is not a number,
    equal to nothing; a field or an element of an interface type, nil or
    holding a value of a dynamic type; a struct or an array, with its
    fields (the blank ones left out) or its elements in order. The
    contents of a value of a type that is not comparable are never looked
    at, and any code stands for them. *)
#[local] Unset Elimination Schemes.
Inductive Value : Type :=
| Scalar (z : Z)
| NotANumber
| BoxedNil
| Boxed (ty : GoType) (v : Value)
| Composite (parts : list Value).
#[local] Set Elimination Schemes.

(** What a method [Is(target error) bool] can observe of its argument. *)
Record TargetView : Type := MkView {
  tv_type : GoType;
  tv_val : Value;
  tv_msg : string
}.

(** The three shapes an error type can have with respect to wrapping: no
    [Unwrap] method, [Unwrap() error], or [Unwrap() []error]. *)
Inductive Unwrap (E : Type) : Type :=
| NoUnwrap
| UnwrapOne (inner : option E)
| UnwrapMany (inners : list (option E)).

Arguments NoUnwrap {E}.
Arguments UnwrapOne {E} inner.
Arguments UnwrapMany {E} inners.

(** A non-nil value of interface type [error]: dynamic type, the value
    inside that type (the address of a pointer, the contents of a struct),
    the result of [Error()], what [fmt] prints for the value under [%v]
    when that is not the result of [Error()] (the type implements
    [fmt.Formatter] and its method [Format] writes something else, or
    [fmt] recovers from a panic of the method and prints a text of its
    own), the optional methods [Is] and [As], and the [Unwrap] method. An
    [As] method that accepts a target returns the value it stores into
    it. *)
#[local] Unset Elimination Schemes.
Inductive Err : Type :=
| MkErr (ty : GoType) (val : Value) (msg : string)
        (printed : option string)
        (is_method : option (TargetView -> bool))
        (as_method : option (TargetType -> option Err))
        (unwrap : Unwrap Err).
#[local] Set Elimination Schemes.

Definition err_type (e : Err) : GoType :=
  let (ty, _, _, _, _, _, _) := e in ty.
Definition err_val (e : Err) : Value :=
  let (_, v, _, _, _, _, _) := e in v.
Definition err_msg (e : Err) : string :=
  let (_, _, m, _, _, _, _) := e in m.
Definition err_printed (e : Err) : option string :=
  let (_, _, _, f, _, _, _) := e in f.
Definition err_is (e : Err) : option (TargetView -> bool) :=
  let (_, _, _, _, i, _, _) := e in i.
Definition err_as (e : Err) : option (TargetType -> option Err) :=
  let (_, _, _, _, _, a, _) := e in a.
Definition err_unwrap (e : Err) : Unwrap Err :=
  let (_, _, _, _, _, _, u) := e in u.

(** Go's [error]: [nil] or a value. *)
Definition error : Type := option Err.

(** Go's [any], as far as this package looks into it: [nil], a value whose
    dynamic type implements [error], or a value whose dynamic type does not
    (an [int], a [string], ...). *)
Inductive any : Type :=
| AnyNil
| AnyError (e : Err)
| AnyOther (ty : GoType).

(** [v.(error)] in its two-result form. *)
Definition assert_error (v : any) : error * bool :=
  match v with
  | AnyError e => (Some e, true)
  | AnyNil | AnyOther _ => (None, false)
  end.

(** Conversion of an [error] to [any]: a nil interface stays nil. *)
Definition any_of_error (e : error) : any :=
  match e with
  | Some x => AnyError x
  | None => AnyNil
  end.

Definition view (t : Err) : TargetView :=
  MkView (err_type t) (err_val t) (err_msg t).

(* ===================================================================== *)
(** ** Panics *)
(* ===================================================================== *)

Inductive PanicValue : Type :=
| PanicString (s : string)      (* panic("...") with a string value *)
| PanicRuntime (s : string).    (* a runtime.Error, its text after
                                   "runtime error: " *)

Inductive Outcome (A : Type) : Type :=
| Returns (a : A)
| Panics (p : PanicValue).

Arguments Returns {A} a.
Arguments Panics {A} p.

Definition is_panic {A} (o : Outcome A) : bool :=
  match o with
  | Returns _ => false
  | Panics _ => true
  end.

(** Sequencing of two computations that may panic but log nothing. *)
Definition and_then {A B} (o : Outcome A) (f : A -> Outcome B) : Outcome B :=
  match o with
  | Returns a => f a
  | Panics p => Panics p
  end.

(* ===================================================================== *)
(** ** The operator [==] *)
(* ===================================================================== *)

(** [a == b] on the contents of two values of one comparable type. The
    fields of a struct and the elements of an array are compared in order,
    and the comparison stops at the first pair that differs. Two interface
    values are equal when both are nil, or when they have one dynamic type
    and equal values; with one dynamic type that is not comparable the
    comparison panics. Values of one type have one shape; on two shapes
    the answer is [false]. *)
Fixpoint value_eq (a b : Value) {struct a} : Outcome bool :=
  match a, b with
  | Scalar x, Scalar y => Returns (Z.eqb x y)
  | BoxedNil, BoxedNil => Returns true
  | Boxed ta va, Boxed tb vb =>
      if GoType_eqb ta tb then
        if type_comparable tb then value_eq va vb
        else Panics (PanicRuntime
                       ("comparing uncomparable type " ++ type_name tb))
      else Returns false
  | Composite xs, Composite ys =>
      (fix parts (xs ys : list Value) {struct xs} : Outcome bool :=
         match xs, ys with
         | [], [] => Returns true
         | x :: xs', y :: ys' =>
             and_then (value_eq x y) (fun equal =>
             if equal then parts xs' ys' else Returns false)
         | _, _ => Returns false
         end) xs ys
  | _, _ => Returns false
  end.

(** Go's [a == b] on two non-nil interface values: [false] for different
    dynamic types, the comparison of the values for one comparable dynamic
    type, a run-time panic for one dynamic type that is not comparable. *)
Definition go_equal (a b : Err) : Outcome bool :=
  if GoType_eqb (err_type a) (err_type b) then
    if type_comparable (err_type b) then value_eq (err_val a) (err_val b)
    else Panics (PanicRuntime
                   ("comparing uncomparable type " ++ type_name (err_type b)))
  else Returns false.

(* ===================================================================== *)
(** ** Package errors of the standard library *)
(* ===================================================================== *)

(** [targetComparable && err == target]: the comparison is made, and may
    panic, only when the type of the target is comparable. *)
Definition equals_target (target : Err) (targetComparable : bool) (err : Err)
  : Outcome bool :=
  if targetComparable then go_equal err target else Returns false.

(** The loop of [errors.is]: at each element of the tree, [==] when the
    target's type is comparable, then the element's own [Is] method, then
    [Unwrap]; a tree of [Unwrap() []error] is walked depth first. *)
Fixpoint errors_is (target : Err) (targetComparable : bool) (err : Err)
  {struct err} : Outcome bool :=
  and_then (equals_target target targetComparable err) (fun equal =>
  if equal then Returns true
  else if match err_is err with
          | Some f => f (view target)
          | None => false
          end then Returns true
  else match err with
       | MkErr _ _ _ _ _ _ u =>
           match u with
           | NoUnwrap => Returns false
           | UnwrapOne None => Returns false
           | UnwrapOne (Some inner) => errors_is target targetComparable inner
           | UnwrapMany errs =>
               (fix range (l : list (option Err)) : Outcome bool :=
                  match l with
                  | [] => Returns false
                  | None :: l' => range l'
                  | Some x :: l' =>
                      and_then (errors_is target targetComparable x)
                        (fun found =>
                           if found then Returns true else range l')
                  end) errs
           end
       end).

(** [errors.Is(err, target)]. *)
Definition errors_Is (err target : error) : Outcome bool :=
  match err, target with
  | None, None => Returns true
  | None, Some _ | Some _, None => Returns false
  | Some e, Some t => errors_is t (type_comparable (err_type t)) e
  end.

(** [reflect.TypeOf(err).AssignableTo(targetType)] for the dynamic type of
    an error value: identity against a concrete type, implementation
    against an interface type. *)
Definition assignable_to (ty : GoType) (targetType : TargetType) : bool :=
  match targetType with
  | ConcreteTarget t => GoType_eqb ty t
  | InterfaceTarget implemented_by => implemented_by ty
  end.

(** The loop of [errors.as]. The result is the value stored into the
    target when the walk reports [true], [None] when it reports [false]. *)
Fixpoint errors_as (targetType : TargetType) (err : Err) {struct err}
  : option Err :=
  if assignable_to (err_type err) targetType then Some err
  else match match err_as err with
             | Some f => f targetType
             | None => None
             end with
       | Some v => Some v
       | None =>
           match err with
           | MkErr _ _ _ _ _ _ u =>
               match u with
               | NoUnwrap => None
               | UnwrapOne None => None
               | UnwrapOne (Some inner) => errors_as targetType inner
               | UnwrapMany errs =>
                   (fix range (l : list (option Err)) : option Err :=
                      match l with
                      | [] => None
                      | None :: l' => range l'
                      | Some x :: l' =>
                          match errors_as targetType x with
                          | Some v => Some v
                          | None => range l'
                          end
                      end) errs
               end
           end
       end.

(** [errors.As(err, target)] for [target] a non-nil pointer to a variable
    of type [targetType]; [implementsError] is
    [targetType.Implements(errorType)]. *)
Definition errors_As (err : error) (targetType : TargetType)
  (implementsError : bool) : Outcome (option Err) :=
  match err with
  | None => Returns None
  | Some e =>
      match targetType with
      | ConcreteTarget _ =>
          if implementsError then Returns (errors_as targetType e)
          else Panics (PanicString
                 "errors: *target must be interface or implement error")
      | InterfaceTarget _ => Returns (errors_as targetType e)
      end
  end.

(* ===================================================================== *)
(** ** Package reflect *)
(* ===================================================================== *)

(** A [reflect.Type] of a dynamic type: the type and whether its method
    set contains [Error() string]. *)
Record RType : Type := MkRType {
  rt_type : GoType;
  rt_implements_error : bool
}.

(** [reflect.TypeOf(v)]: the nil [Type] for a nil interface. *)
Definition reflect_TypeOf (v : any) : option RType :=
  match v with
  | AnyNil => None
  | AnyError e => Some (MkRType (err_type e) true)
  | AnyOther ty => Some (MkRType ty false)
  end.

(** [reflect.New(typ).Interface()]: a pointer to a fresh zero value of
    [typ], given here by the type pointed to; panics on the nil [Type]. *)
Definition reflect_New (typ : option RType) : Outcome RType :=
  match typ with
  | None => Panics (PanicString "reflect: New(nil)")
  | Some t => Returns t
  end.

(* ===================================================================== *)
(** ** Package fmt *)
(* ===================================================================== *)

(** The verb [%T] applied to an [error]: the dynamic type, no method of
    the value being called. *)
Definition fmt_T (err : error) : string :=
  match err with
  | Some e => type_name (err_type e)
  | None => "<nil>"
  end.

(** The verb [%v] applied to an [error], the string form of the value.
    [fmt] asks the method [Format] of a [fmt.Formatter] first and calls
    [Error()] otherwise, either of them under a [recover]: the result is
    what the value is printed as, where it says so, and the result of
    [Error()] otherwise. *)
Definition fmt_v (err : error) : string :=
  match err with
  | Some e =>
      match err_printed e with
      | Some text => text
      | None => err_msg e
      end
  | None => "<nil>"
  end.

(* ===================================================================== *)
(** ** errors/handler.go *)
(* ===================================================================== *)

(** Calling a Go function value; the nil function panics. *)
Definition call {A B} (f : option (A -> Outcome B)) (a : A) : Outcome B :=
  match f with
  | Some g => g a
  | None =>
      Panics (PanicRuntime "invalid memory address or nil pointer dereference")
  end.

(** [type ErrorHandler func(error) error] *)
Definition ErrorHandler : Type := option (error -> Outcome error).

(** [type ErrorMatcher struct] *)
Record ErrorMatcher : Type := MkMatcher {
  ErrorType : any;
  Handler : ErrorHandler;
  IsSentinel : bool
}.

(** What the log records: the loop of [HandleError] reached a matcher, the
    handler of a matcher was called, the default handler was called. *)
Inductive Event : Type :=
| Tested (m : ErrorMatcher)
| Invoked (m : ErrorMatcher) (arg : error)
| InvokedDefault (arg : error).

(** A run of the dispatcher: the log and how the run ended. *)
Definition Exec (A : Type) : Type := (list Event * Outcome A)%type.

Definition log {A} (x : Exec A) : list Event := fst x.
Definition outcome {A} (x : Exec A) : Outcome A := snd x.

Definition ret {A} (a : A) : Exec A := ([], Returns a).

Definition panic {A} (p : PanicValue) : Exec A := ([], Panics p).

Definition bind {A B} (x : Exec A) (f : A -> Exec B) : Exec B :=
  match x with
  | (l, Returns a) => ((l ++ log (f a))%list, outcome (f a))
  | (l, Panics p) => (l, Panics p)
  end.

Definition emit (ev : Event) : Exec unit := ([ev], Returns tt).

Definition lift {A} (o : Outcome A) : Exec A := ([], o).

Declare Scope exec_scope.
Delimit Scope exec_scope with exec.
Notation "x <- c ;; k" := (bind c (fun x => k))
  (at level 61, c at next level, right associativity) : exec_scope.
Notation "c ;; k" := (bind c (fun _ => k))
  (at level 61, right associativity) : exec_scope.
Open Scope exec_scope.

(** [matcher.Handler(err)] inside the loop. *)
Definition invoke (matcher : ErrorMatcher) (err : error) : Exec error :=
  emit (Invoked matcher err) ;;
  lift (call (Handler matcher) err).

(** The [for _, matcher := range matchers] loop of [HandleError] and the
    [return false, err] after it. *)
Fixpoint range_matchers (err : error) (matchers : list ErrorMatcher)
  : Exec (bool * error) :=
  match matchers with
  | [] => ret (false, err)
  | matcher :: rest =>
      emit (Tested matcher) ;;
      if IsSentinel matcher then
        let (sentinelErr, ok) := assert_error (ErrorType matcher) in
        if ok then
          found <- lift (errors_Is err sentinelErr) ;;
          if found then
            r <- invoke matcher err ;;
            ret (true, r)
          else range_matchers err rest
        else range_matchers err rest
      else
        let errorType := reflect_TypeOf (ErrorType matcher) in
        errorValue <- lift (reflect_New errorType) ;;
        found <- lift (errors_As err (ConcreteTarget (rt_type errorValue))
                         (rt_implements_error errorValue)) ;;
        match found with
        | Some _ =>
            r <- invoke matcher err ;;
            ret (true, r)
        | None => range_matchers err rest
        end
  end.

Definition HandleError (err : error) (matchers : list ErrorMatcher)
  : Exec (bool * error) :=
  match err with
  | None => ret (true, None)
  | Some _ => range_matchers err matchers
  end.

Definition Handle := HandleError.

Definition HandleErrorOrDie (err : error) (matchers : list ErrorMatcher)
  : Exec error :=
  res <- HandleError err matchers ;;
  let (ok, err) := res : bool * error in
  if negb ok then
    panic (PanicString
             ("Unhandled error of type " ++ fmt_T err ++ ": " ++ fmt_v err))
  else ret err.

Definition MustHandle := HandleErrorOrDie.

Definition HandleErrorOrDefault (err : error) (dft : ErrorHandler)
  (matchers : list ErrorMatcher) : Exec error :=
  res <- HandleError err matchers ;;
  let (ok, err) := res : bool * error in
  if negb ok then
    match dft with
    | None => ret None
    | Some _ =>
        emit (InvokedDefault err) ;;
        lift (call dft err)
    end
  else ret err.

Definition HandleOr := HandleErrorOrDefault.

Definition OnSentinelError (sentinelErr : error) (handler : ErrorHandler)
  : ErrorMatcher :=
  {| ErrorType := any_of_error sentinelErr;
     Handler := handler;
     IsSentinel := true |}.

Definition OnSentinel := OnSentinelError.

(** [var zero T] for a type argument [T] that satisfies the constraint
    [error], converted to [any]: a value of dynamic type [T] when [T] is a
    concrete type, the nil interface when [T] is an interface type. Of the
    value of a concrete type only the dynamic type is ever looked at. *)
Definition zero (T : TargetType) : any :=
  match T with
  | ConcreteTarget ty =>
      AnyError (MkErr ty (Scalar 0) EmptyString None None None NoUnwrap)
  | InterfaceTarget _ => AnyNil
  end.

(** [func OnCustomError[T error](handler func(T) error) ErrorMatcher];
    the type argument is the first parameter. *)
Definition OnCustomError (T : TargetType)
  (handler : option (Err -> Outcome error)) : ErrorMatcher :=
  {| ErrorType := zero T;
     Handler := Some (fun err : error =>
       and_then (errors_As err T true) (fun typedErr =>
         match typedErr with
         | Some t => call handler t
         | None => Returns None
         end));
     IsSentinel := false |}.

Definition OnType (T : TargetType) (handler : option (Err -> Outcome error))
  : ErrorMatcher :=
  OnCustomError T handler.

(* ===================================================================== *)
(** ** Vocabulary of the properties *)
(* ===================================================================== *)

(** The wrap chain of an error: the element itself, then what [Unwrap]
    gives, depth first and in order, nil entries left out. *)
Fixpoint chain (err : Err) : list Err :=
  err ::
  match err with
  | MkErr _ _ _ _ _ _ u =>
      match u with
      | NoUnwrap => []
      | UnwrapOne None => []
      | UnwrapOne (Some inner) => chain inner
      | UnwrapMany errs =>
          (fix range (l : list (option Err)) : list Err :=
             match l with
             | [] => []
             | None :: l' => range l'
             | Some x :: l' => (chain x ++ range l')%list
             end) errs
      end
  end.

(** The chain of [e] holds the value [S]: one of its elements is [== S]. *)
Definition chain_contains (e S : Err) : Prop :=
  Exists (fun x => go_equal x S = Returns true) (chain e).



(** What [errors.is] tests at one element of the chain. *)
Definition is_here (target : Err) (targetComparable : bool) (x : Err)
  : Outcome bool :=
  and_then (equals_target target targetComparable x) (fun equal =>
  Returns (equal || match err_is x with
                    | Some f => f (view target)
                    | None => false
                    end)).


(** The first element of a list on which the test [f] succeeds or
    panics decides. *)
Fixpoint first_true {A} (f : A -> Outcome bool) (l : list A) : Outcome bool :=
  match l with
  | [] => Returns false
  | x :: l' =>
      and_then (f x) (fun found =>
      if found then Returns true else first_true f l')
  end.


(** The matching predicate: the test the loop of [HandleError] applies to
    one matcher, with the panics of [reflect.New] and [errors.As]. *)
Definition matches (err : error) (m : ErrorMatcher) : Outcome bool :=
  if IsSentinel m then
    let (sentinelErr, ok) := assert_error (ErrorType m) in
    if ok then errors_Is err sentinelErr else Returns false
  else
    and_then (reflect_New (reflect_TypeOf (ErrorType m))) (fun errorValue =>
    and_then (errors_As err (ConcreteTarget (rt_type errorValue))
                (rt_implements_error errorValue)) (fun found =>
    Returns (match found with Some _ => true | None => false end))).

(** No matcher of the list matches: every test returns [false]. *)
Definition none_matches (err : error) (matchers : list ErrorMatcher) : Prop :=
  Forall (fun m => matches err m = Returns false) matchers.

(** [m] is the first matcher of [pre ++ m :: post] that matches. *)
Definition first_match (err : error) (pre : list ErrorMatcher)
  (m : ErrorMatcher) : Prop :=
  none_matches err pre /\ matches err m = Returns true.

(** The log of a dispatch on which [m], after the matchers [pre], matched. *)
Definition log_of_match (err : error) (pre : list ErrorMatcher)
  (m : ErrorMatcher) : list Event :=
  (map Tested pre ++ [Tested m; Invoked m err])%list.

(** A handler's outcome, turned into the result pair of [HandleError]. *)
Definition handled (o : Outcome error) : Outcome (bool * error) :=
  and_then o (fun r => Returns (true, r)).

(** The runs of the loop as a relation, one rule for each way an
    iteration can end: the list is exhausted, the matcher fires, the loop
    goes on to the next matcher, the test panics. *)
Inductive loop_runs (err : error)
  : list ErrorMatcher -> Exec (bool * error) -> Prop :=
| loop_end :
    loop_runs err [] ([], Returns (false, err))
| loop_fire m rest :
    matches err m = Returns true ->
    loop_runs err (m :: rest)
      ([Tested m; Invoked m err], handled (call (Handler m) err))
| loop_next m rest l o :
    matches err m = Returns false ->
    loop_runs err rest (l, o) ->
    loop_runs err (m :: rest) (Tested m :: l, o)
| loop_crash m rest p :
    matches err m = Panics p ->
    loop_runs err (m :: rest) ([Tested m], Panics p).

(** The runs of [HandleError]. *)
Inductive dispatch_runs
  : error -> list ErrorMatcher -> Exec (bool * error) -> Prop :=
| dispatch_nil M :
    dispatch_runs None M ([], Returns (true, None))
| dispatch_loop e M run :
    loop_runs (Some e) M run ->
    dispatch_runs (Some e) M run.

(** [HandleErrorOrDie] panics exactly when the error is not nil and no
    matcher matches it. *)
Definition dies_iff_unmatched (err : error) (M : list ErrorMatcher) : Prop :=
  is_panic (outcome (HandleErrorOrDie err M)) = true
  <-> (err <> None /\ none_matches err M).


(** Two matchers that cannot be told apart on [err]: same test, same
    handler behaviour. *)
Definition same_on (err : error) (m m' : ErrorMatcher) : Prop :=
  matches err m = matches err m'
  /\ call (Handler m) err = call (Handler m') err.

(** [fmt.Errorf("...: %w", inner)]: a [*fmt.wrapError] around [inner]. *)
Definition wrapErrorType : GoType := MkType "*fmt.wrapError" true.

Definition wrap (addr : Z) (msg : string) (inner : Err) : Err :=
  MkErr wrapErrorType (Scalar addr) (msg ++ ": " ++ fmt_v (Some inner))
        None None None (UnwrapOne (Some inner)).

(** [errors.New(msg)]: a [*errors.errorString]. *)
Definition errorStringType : GoType := MkType "*errors.errorString" true.

Definition errors_New (addr : Z) (msg : string) : Err :=
  MkErr errorStringType (Scalar addr) msg None None None NoUnwrap.

(** Structural induction over error trees. *)
Section Err_induction.
Variable P : Err -> Prop.
Hypothesis P_leaf : forall ty v m f i a, P (MkErr ty v m f i a NoUnwrap).
Hypothesis P_nil :
  forall ty v m f i a, P (MkErr ty v m f i a (UnwrapOne None)).
Hypothesis P_one : forall ty v m f i a inner,
    P inner -> P (MkErr ty v m f i a (UnwrapOne (Some inner))).
Hypothesis P_many : forall ty v m f i a errs,
    Forall (fun o => match o with Some x => P x | None => True end) errs ->
    P (MkErr ty v m f i a (UnwrapMany errs)).

Fixpoint Err_ind (e : Err) : P e :=
  match e with
  | MkErr ty v m f i a u =>
      match u as u0 return P (MkErr ty v m f i a u0) with
      | NoUnwrap => P_leaf ty v m f i a
      | UnwrapOne None => P_nil ty v m f i a
      | UnwrapOne (Some inner) => P_one ty v m f i a inner (Err_ind inner)
      | UnwrapMany errs =>
          P_many ty v m f i a errs
            ((fix all (l : list (option Err))
                : Forall (fun o => match o with
                                   | Some x => P x
                                   | None => True
                                   end) l :=
                match l with
                | [] => Forall_nil _
                | o :: l' =>
                    Forall_cons o
                      (match o as o0
                             return match o0 with
                                    | Some x => P x
                                    | None => True
                                    end with
                       | Some x => Err_ind x
                       | None => I
                       end)
                      (all l')
                end) errs)
      end
  end.
End Err_induction.

(** Structural induction over the contents of values. *)
Section Value_induction.
Variable P : Value -> Prop.
Hypothesis P_scalar : forall z, P (Scalar z).
Hypothesis P_nan : P NotANumber.
Hypothesis P_boxed_nil : P BoxedNil.
Hypothesis P_boxed : forall ty v, P v -> P (Boxed ty v).
Hypothesis P_composite : forall parts, Forall P parts -> P (Composite parts).

Fixpoint Value_ind (v : Value) : P v :=
  match v with
  | Scalar z => P_scalar z
  | NotANumber => P_nan
  | BoxedNil => P_boxed_nil
  | Boxed ty v' => P_boxed ty v' (Value_ind v')
  | Composite parts =>
      P_composite parts
        ((fix all (l : list Value) : Forall P l :=
            match l with
            | [] => Forall_nil _
            | x :: l' => Forall_cons x (Value_ind x) (all l')
            end) parts)
  end.
End Value_induction.

(* ===================================================================== *)
(** ** Values used in the examples *)
(* ===================================================================== *)

Module Examples.

(** [var ErrNotFound = errors.New("not found")] and two more values. *)
Definition ErrNotFound : Err := errors_New 1 "not found".
Definition ErrTimeout : Err := errors_New 2 "timeout".
Definition R : Err := errors_New 3 "R".

(** [type StatusError struct{ Code int }] with a pointer receiver. *)
Definition StatusError : GoType := MkType "*StatusError" true.


(** [type fieldErrors []string] with a method [Error]: a slice type, not
    comparable. *)
Definition fieldErrors : GoType := MkType "fieldErrors" false.
Definition missingFields : Err :=
  MkErr fieldErrors (Scalar 7) "missing fields" None None None NoUnwrap.

(** A value of a type with [Unwrap() []error], which returns
    [ErrTimeout], nil and [ErrNotFound] under one layer. *)
Definition multiError : GoType := MkType "*multiError" true.
Definition joined : Err :=
  MkErr multiError (Scalar 30) "timeout; lookup: not found" None None None
    (UnwrapMany [Some ErrTimeout; None;
                 Some (wrap 31 "lookup" ErrNotFound)]).

(** [fmt.Errorf("lookup: %w", ErrNotFound)] and a [*StatusError] under two
    layers. *)
Definition lookup : Err := wrap 40 "lookup" ErrNotFound.

Definition replace_with (r : error) : ErrorHandler :=
  Some (fun _ => Returns r).

Definition keep : ErrorHandler := Some (fun e => Returns e).

(** [func(error) error { panic("boom") }] *)
Definition boom : ErrorHandler :=
  Some (fun _ => Panics (PanicString "boom")).

(** [func(e *StatusError) error] returning an error built from the
    code. *)
Definition code (t : Err) : Z :=
  match err_val t with
  | Scalar z => z
  | _ => 0
  end.

Definition report_code : option (Err -> Outcome error) :=
  Some (fun t => Returns (Some (errors_New (code t) "code"))).

(** [type detailError struct{ Op string; Detail any }] with a value
    receiver, a comparable type: one value with a [[]string] in [Detail],
    one with an [int]. *)
Definition detailError : GoType := MkType "detailError" true.
Definition withTags : Err :=
  MkErr detailError
    (Composite [Scalar 1; Boxed (MkType "[]string" false) (Scalar 0)])
    "read: tags" None None None NoUnwrap.
Definition withCount : Err :=
  MkErr detailError (Composite [Scalar 1; Boxed (MkType "int" true) (Scalar 5)])
    "read: 5" None None None NoUnwrap.

(** A value of a type with a method [Format], which reports more than
    [Error()] does. *)
Definition tracedError : GoType := MkType "*tracedError" true.
Definition traced : Err :=
  MkErr tracedError (Scalar 50) "disk full"
    (Some "disk full (store.go:12)") None None NoUnwrap.

(** The nil [*StatusError] in an [error]: a value that is not nil, whose
    [Error()] dereferences the receiver; [fmt] recovers and prints
    [<nil>]. *)
Definition nilStatus : Err :=
  MkErr StatusError (Scalar 0) EmptyString (Some "<nil>") None None NoUnwrap.

(** Matchers written as struct literals, outside the builders. *)
Definition typed_nil (h : ErrorHandler) : ErrorMatcher :=
  {| ErrorType := AnyNil; Handler := h; IsSentinel := false |}.

Definition typed_int (h : ErrorHandler) : ErrorMatcher :=
  {| ErrorType := AnyOther (MkType "int" true);
     Handler := h; IsSentinel := false |}.

Definition sentinel_int (h : ErrorHandler) : ErrorMatcher :=
  {| ErrorType := AnyOther (MkType "int" true);
     Handler := h; IsSentinel := true |}.

End Examples.

(* ===================================================================== *)
(** ** Further vocabulary for the dispatcher *)
(* ===================================================================== *)

(** No part of the contents that has an interface type holds a value of
    a type that is not comparable. *)
Fixpoint comparable_contents (v : Value) : bool :=
  match v with
  | Scalar _ | NotANumber | BoxedNil => true
  | Boxed ty v' => type_comparable ty && comparable_contents v'
  | Composite parts => forallb comparable_contents parts
  end.

(** [errors.Is] with the target [S] makes no comparison that can panic:
    the type of [S] is not comparable, so that nothing is compared, or
    the contents of [S] are comparable throughout. *)
Definition safe_sentinel (S : Err) : bool :=
  negb (type_comparable (err_type S)) || comparable_contents (err_val S).

(** The comparison [errors.Is] makes at the element [x] for the sentinel
    [S] says nothing: there is none, or it returns [false]. *)
Definition not_equal_to (S x : Err) : Prop :=
  type_comparable (err_type S) = false \/ go_equal x S = Returns false.

(** The element [x] of a chain answers to the sentinel [S]: it is [== S],
    or it is not and its own [Is] method accepts [S]. *)
Definition sentinel_hit (S x : Err) : Prop :=
  go_equal x S = Returns true
  \/ (not_equal_to S x
      /\ exists f, err_is x = Some f /\ f (view S) = true).

(** The element [x] does not answer to [S]. *)
Definition sentinel_miss (S x : Err) : Prop :=
  not_equal_to S x
  /\ forall f, err_is x = Some f -> f (view S) = false.

(** The comparison of the element [x] with [S] panics. *)
Definition sentinel_crash (S x : Err) (p : PanicValue) : Prop :=
  type_comparable (err_type S) = true /\ go_equal x S = Panics p.

(** A matcher of the sentinel kind holds a sentinel that is safe to
    compare with. *)
Definition safe_matcher (m : ErrorMatcher) : Prop :=
  forall S, IsSentinel m = true -> ErrorType m = AnyError S ->
            safe_sentinel S = true.

(** The sentinel matcher for [S] finds [S] in the chain of [e]: the
    dispatch tests the matcher, calls [h] on [e] and returns what [h]
    returns. *)
Definition finds_sentinel (e S : Err) (h : ErrorHandler) : Prop :=
  In S (chain e) ->
  HandleError (Some e) [OnSentinelError (Some S) h] =
  ([Tested (OnSentinelError (Some S) h);
    Invoked (OnSentinelError (Some S) h) (Some e)],
   handled (call h (Some e))).

(** [part] occurs in the string [s]. *)
Definition occurs_in (part s : string) : Prop :=
  exists before after, s = before ++ part ++ after.


(** A matcher that comes out of one of the two builders, the typed one
    instantiated at a concrete type. *)
Definition well_built (m : ErrorMatcher) : Prop :=
  (exists sentinelErr handler, m = OnSentinelError sentinelErr handler)
  \/ (exists T handler, m = OnCustomError (ConcreteTarget T) handler).

(* ===================================================================== *)
(** ** number/base.go *)
(* ===================================================================== *)

Module number.
Local Open Scope Z_scope.

(** A type of the constraint [Number]: its width in bits and whether it is
    signed. [int], [uint] and [uintptr] have the width of the platform. *)
Record IntType : Type := MkInt {
  int_bits : Z;
  int_signed : bool
}.

(** The widths Go's integer types have. *)
Definition supported (ty : IntType) : Prop :=
  int_bits ty = 8 \/ int_bits ty = 16 \/ int_bits ty = 32 \/ int_bits ty = 64.

Definition min_value (ty : IntType) : Z :=
  if int_signed ty then - 2 ^ (int_bits ty - 1) else 0.

Definition max_value (ty : IntType) : Z :=
  if int_signed ty then 2 ^ (int_bits ty - 1) - 1 else 2 ^ int_bits ty - 1.

Definition in_range (ty : IntType) (z : Z) : Prop :=
  min_value ty <= z <= max_value ty.

(** The value an arithmetic result has in the type: wrap-around modulo
    [2 ^ bits]. *)
Definition wrap (ty : IntType) (z : Z) : Z :=
  if int_signed ty then
    (z + 2 ^ (int_bits ty - 1)) mod 2 ^ int_bits ty - 2 ^ (int_bits ty - 1)
  else z mod 2 ^ int_bits ty.

(** [for number < 0 { number /= 10; count++ }]. Go's [/] truncates
    towards zero, and a quotient by 10 stays in the range of the type;
    [count++] wraps around. *)
Equations? loop_negative (ty : IntType) (number count : Z) : Z
  by wf (Z.abs_nat number) lt :=
  loop_negative ty number count with Z_lt_dec number 0 => {
    | left _ := loop_negative ty (Z.quot number 10) (wrap ty (count + 1));
    | right _ := count }.
Proof.
  apply Nat2Z.inj_lt. rewrite !Zabs2Nat.id_abs.
  rewrite <- (Z.quot_abs number 10) by lia.
  apply Z.quot_lt; lia.
Qed.

(** [for number > 0 { number /= 10; count++ }] *)
Equations? loop_positive (ty : IntType) (number count : Z) : Z
  by wf (Z.abs_nat number) lt :=
  loop_positive ty number count with Z_lt_dec 0 number => {
    | left _ := loop_positive ty (Z.quot number 10) (wrap ty (count + 1));
    | right _ := count }.
Proof.
  apply Nat2Z.inj_lt. rewrite !Zabs2Nat.id_abs.
  rewrite <- (Z.quot_abs number 10) by lia.
  apply Z.quot_lt; lia.
Qed.

Definition NumLen (ty : IntType) (number : Z) : Z :=
  if number =? 0 then 1
  else
    let count := 0 in
    if number <? 0 then loop_negative ty number count
    else loop_positive ty number count.

End number.

(* ===================================================================== *)
(** ** slice/slice.go *)
(* ===================================================================== *)

Module slice.
Local Open Scope nat_scope.
Section Cyclers.

(** The element type with its zero value, and a random generator: the
    state of a [*rand.Rand] and its method [IntN], which returns a number
    below its argument and the next state. The closures below own the
    generator they capture. *)
Context {T : Type} (zero : T).
Context {Rand : Type} (IntN : Rand -> nat -> nat * Rand).

(** [items[i]]: a run-time panic when the index is out of range. Indices
    are Go [int]s that stay between 0 and [len(items)], where no increment
    wraps around; they are natural numbers here. *)
Definition item_at (items : list T) (i : nat) : Outcome T :=
  match nth_error items i with
  | Some item => Returns item
  | None => Panics (PanicRuntime "index out of range")
  end.

(** The function values [Cycle] and [RandomCycle] return: the closure
    body together with the variables it captured. *)
Inductive Closure : Type :=
| ReturnZero
    (* func() T { return zero } *)
| CycleNext (items : list T) (index : nat)
    (* the second closure of Cycle *)
| ReturnFirst (items : list T)
    (* func() T { return items[0] } *)
| RandomNext (items : list T) (sliceLen : nat) (localRand : Rand)
             (currentIndex stopIndex : nat).
    (* the third closure of RandomCycle *)

Definition Cycle (items : list T) : Closure :=
  if List.length items =? 0 then ReturnZero
  else
    let index := 0 in
    CycleNext items index.

(** [localRand] is nil ([None]) or a generator; [clock] is the generator
    [rand.New(rand.NewPCG(...))] makes from the current time. *)
Definition RandomCycle (clock : Rand) (localRand : option Rand)
  (items : list T) : Closure :=
  let sliceLen := List.length items in
  match sliceLen with
  | 0 => ReturnZero
  | 1 => ReturnFirst items
  | _ =>
      let localRand := match localRand with
                       | None => clock
                       | Some r => r
                       end in
      let (currentIndex, localRand) := IntN localRand sliceLen in
      let stopIndex := currentIndex in
      RandomNext items sliceLen localRand currentIndex stopIndex
  end.

(** One call of a closure: what it returns and the closure with its
    variables as the call leaves them. *)
Definition next (f : Closure) : Outcome (T * Closure) :=
  match f with
  | ReturnZero => Returns (zero, ReturnZero)
  | CycleNext items i =>
      and_then (item_at items i) (fun item =>
      let i := (i + 1) mod List.length items in
      Returns (item, CycleNext items i))
  | ReturnFirst items =>
      and_then (item_at items 0) (fun item =>
      Returns (item, ReturnFirst items))
  | RandomNext items sliceLen localRand currentIndex stopIndex =>
      and_then (item_at items currentIndex) (fun item =>
      let currentIndex := currentIndex + 1 in
      let currentIndex :=
        if currentIndex =? sliceLen then 0 else currentIndex in
      if currentIndex =? stopIndex then
        let (currentIndex, localRand) := IntN localRand sliceLen in
        let stopIndex := currentIndex in
        Returns (item, RandomNext items sliceLen localRand
                         currentIndex stopIndex)
      else
        Returns (item, RandomNext items sliceLen localRand
                         currentIndex stopIndex))
  end.

(** [n] calls in a row: the items returned, in order, and the closure
    afterwards. *)
Fixpoint calls (n : nat) (f : Closure) : Outcome (list T * Closure) :=
  match n with
  | 0 => Returns ([], f)
  | S n' =>
      and_then (next f) (fun r =>
      and_then (calls n' (snd r)) (fun rs =>
      Returns (fst r :: fst rs, snd rs)))
  end.

(** [items] read from position [s] on, around the end. *)
Definition rotate (s : nat) (items : list T) : list T :=
  (skipn s items ++ firstn s items)%list.

(** A closure of [RandomCycle] at the start of a round: current and stop
    index are the same position of the slice. *)
Definition round_start (items : list T) (f : Closure) (s : nat) : Prop :=
  exists localRand,
    f = RandomNext items (List.length items) localRand s s /\ s < List.length items.

End Cyclers.
End slice.

(* ===================================================================== *)
(** ** maps/base.go *)
(* ===================================================================== *)

Module maps.
Local Open Scope nat_scope.
Section Maps.

(** Keys are [comparable]; values are anything. *)
Context {K V : Type} (K_eq_dec : forall a b : K, {a = b} + {a <> b}).

(** The contents of a map object: its entries, one for each key. *)
Definition Table : Type := list (K * V).

(** A value of a map type: nil, or a reference to a map object. Two map
    values that hold the same reference are the same map. *)
Definition MapValue : Type := option nat.

(** The memory the functions work on: the variables of map type that
    pointers can point to, and the map objects. [make] adds an object. *)
Record Memory : Type := MkMemory {
  vars : list MapValue;
  objects : list Table
}.

(** A pointer to a variable of map type: nil, or the variable. *)
Definition Pointer : Type := option nat.

(** [m[k]] with the comma-ok result. *)
Fixpoint lookup (k : K) (t : Table) : option V :=
  match t with
  | [] => None
  | (k', v) :: t' => if K_eq_dec k k' then Some v else lookup k t'
  end.

(** [m[k] = v] on the contents of a map object. *)
Fixpoint assign (k : K) (v : V) (t : Table) : Table :=
  match t with
  | [] => [(k, v)]
  | (k', v') :: t' =>
      if K_eq_dec k k' then (k, v) :: t' else (k', v') :: assign k v t'
  end.

Fixpoint replace_nth {A} (n : nat) (x : A) (l : list A) : list A :=
  match l, n with
  | [], _ => []
  | _ :: l', 0 => x :: l'
  | y :: l', S n' => y :: replace_nth n' x l'
  end.

(** [*m] *)
Definition deref (m : Pointer) (mem : Memory) : Outcome MapValue :=
  match m with
  | None =>
      Panics (PanicRuntime "invalid memory address or nil pointer dereference")
  | Some x =>
      match nth_error (vars mem) x with
      | Some value => Returns value
      | None =>
          Panics (PanicRuntime
                    "invalid memory address or nil pointer dereference")
      end
  end.

(** The contents of a map value; a nil map reads as the empty map. *)
Definition contents (value : MapValue) (mem : Memory) : Table :=
  match value with
  | None => []
  | Some a => nth a (objects mem) []
  end.

(** [m[k] = v] on a map value: a panic on the nil map. *)
Definition assign_entry (dst : MapValue) (k : K) (v : V) (mem : Memory)
  : Outcome Memory :=
  match dst with
  | None => Panics (PanicString "assignment to entry in nil map")
  | Some a =>
      Returns {| vars := vars mem;
                 objects := replace_nth a (assign k v (contents dst mem))
                              (objects mem) |}
  end.

(** [maps.Copy(dst, src)] of the standard library:
    [for k, v := range src { dst[k] = v }]. The order in which [range]
    visits the entries of a map is not specified; [order] gives it. *)
Fixpoint copy_entries (dst : MapValue) (entries : list (K * V))
  (mem : Memory) : Outcome Memory :=
  match entries with
  | [] => Returns mem
  | (k, v) :: rest =>
      and_then (assign_entry dst k v mem) (copy_entries dst rest)
  end.

Definition maps_Copy (order : Table -> list (K * V)) (dst src : MapValue)
  (mem : Memory) : Outcome Memory :=
  copy_entries dst (order (contents src mem)) mem.

Definition InitMap (m : Pointer) (mem : Memory) : Outcome Memory :=
  and_then (deref m mem) (fun value =>
  match value, m with
  | None, Some x =>
      Returns {| vars := replace_nth x (Some (List.length (objects mem)))
                           (vars mem);
                 objects := (objects mem ++ [[]])%list |}
  | _, _ => Returns mem
  end).

Definition UpdateMap (order : Table -> list (K * V)) (oldMap : Pointer)
  (newMap : MapValue) (mem : Memory) : Outcome Memory :=
  and_then (InitMap oldMap mem) (fun mem =>
  and_then (deref oldMap mem) (fun dst =>
  maps_Copy order dst newMap mem)).

(** A memory in which every reference leads to a map object. *)
Definition valid (value : MapValue) (mem : Memory) : Prop :=
  match value with
  | None => True
  | Some a => a < List.length (objects mem)
  end.

(** ... and every map object has one entry for a key. *)
Definition well_formed (mem : Memory) : Prop :=
  Forall (fun value => valid value mem) (vars mem)
  /\ Forall (fun t : Table => NoDup (map fst t)) (objects mem).

(** What a merge reads at a key: the entry of the new map, or else the one
    of the old map. *)
Definition merged (k : K) (old new : Table) : option V :=
  match lookup k new with
  | Some v => Some v
  | None => lookup k old
  end.

End Maps.
End maps.

(* ===================================================================== *)
(** ** parser/string.go *)
(* ===================================================================== *)

Module parser.
Local Open Scope Z_scope.
Section Parsers.

(** [float64] and [url.URL] with their zero values, and the width of
    [int] and [uint] on the platform. *)
Context {Float URL : Type} (float_zero : Float) (url_zero : URL).
Context (word_bits : Z).

(** The functions of the standard library [ParseString] calls, each with
    the value and the error it returns. [url.Parse] returns a pointer that
    is not nil exactly when the error is nil: the URL, or the error. *)
Context (strconv_Atoi : string -> Z * error).
Context (strconv_ParseInt : string -> Z -> Z -> Z * error).
Context (strconv_ParseUint : string -> Z -> Z -> Z * error).
Context (strconv_ParseFloat : string -> Z -> Float * error).
Context (strconv_ParseBool : string -> bool * error).
Context (time_ParseDuration : string -> Z * error).
Context (url_Parse : string -> URL + Err).

(** The types of the constraint [ParseStringSupportedTypes]. *)
Inductive SupportedType : Type :=
| TString
| TInt | TInt8 | TInt16 | TInt32 | TInt64
| TUint | TUint8 | TUint16 | TUint32 | TUint64
| TFloat64
| TBool | TDuration | TURL.

(** A value of one of these types. *)
Inductive Value : Type :=
| VString (s : string)
| VInt (i : Z) | VInt8 (i : Z) | VInt16 (i : Z) | VInt32 (i : Z)
| VInt64 (i : Z)
| VUint (u : Z) | VUint8 (u : Z) | VUint16 (u : Z) | VUint32 (u : Z)
| VUint64 (u : Z)
| VFloat64 (f : Float)
| VBool (b : bool)
| VDuration (d : Z)
| VURL (u : URL).

(** [var value T] *)
Definition zero_value (T : SupportedType) : Value :=
  match T with
  | TString => VString EmptyString
  | TInt => VInt 0 | TInt8 => VInt8 0 | TInt16 => VInt16 0
  | TInt32 => VInt32 0 | TInt64 => VInt64 0
  | TUint => VUint 0 | TUint8 => VUint8 0 | TUint16 => VUint16 0
  | TUint32 => VUint32 0 | TUint64 => VUint64 0
  | TFloat64 => VFloat64 float_zero
  | TBool => VBool false
  | TDuration => VDuration 0
  | TURL => VURL url_zero
  end.

(** The conversions [int8(i)], [uint16(u)], ...: the value in the
    narrower type. *)
Definition convert (bits : Z) (signed : bool) (z : Z) : Z :=
  number.wrap (number.MkInt bits signed) z.

(** [ParseString[T](rawValue)]. The [default] case of the type switch is
    not reached for a type of the constraint. *)
Definition ParseString (T : SupportedType) (rawValue : string)
  : Value * error :=
  let value := zero_value T in
  match T with
  | TString => (VString rawValue, None)
  | TInt =>
      let (i, err) := strconv_Atoi rawValue in
      match err with
      | Some _ => (value, err)
      | None => (VInt i, None)
      end
  | TInt8 =>
      let (i, err) := strconv_ParseInt rawValue 10 8 in
      match err with
      | Some _ => (value, err)
      | None => (VInt8 (convert 8 true i), None)
      end
  | TInt16 =>
      let (i, err) := strconv_ParseInt rawValue 10 16 in
      match err with
      | Some _ => (value, err)
      | None => (VInt16 (convert 16 true i), None)
      end
  | TInt32 =>
      let (i, err) := strconv_ParseInt rawValue 10 32 in
      match err with
      | Some _ => (value, err)
      | None => (VInt32 (convert 32 true i), None)
      end
  | TInt64 =>
      let (i, err) := strconv_ParseInt rawValue 10 64 in
      match err with
      | Some _ => (value, err)
      | None => (VInt64 i, None)
      end
  | TUint =>
      let (u, err) := strconv_ParseUint rawValue 10 0 in
      match err with
      | Some _ => (value, err)
      | None => (VUint (convert word_bits false u), None)
      end
  | TUint8 =>
      let (u, err) := strconv_ParseUint rawValue 10 8 in
      match err with
      | Some _ => (value, err)
      | None => (VUint8 (convert 8 false u), None)
      end
  | TUint16 =>
      let (u, err) := strconv_ParseUint rawValue 10 16 in
      match err with
      | Some _ => (value, err)
      | None => (VUint16 (convert 16 false u), None)
      end
  | TUint32 =>
      let (u, err) := strconv_ParseUint rawValue 10 32 in
      match err with
      | Some _ => (value, err)
      | None => (VUint32 (convert 32 false u), None)
      end
  | TUint64 =>
      let (u, err) := strconv_ParseUint rawValue 10 64 in
      match err with
      | Some _ => (value, err)
      | None => (VUint64 u, None)
      end
  | TFloat64 =>
      let (f, err) := strconv_ParseFloat rawValue 64 in
      match err with
      | Some _ => (value, err)
      | None => (VFloat64 f, None)
      end
  | TBool =>
      let (b, err) := strconv_ParseBool rawValue in
      match err with
      | Some _ => (value, err)
      | None => (VBool b, None)
      end
  | TDuration =>
      let (d, err) := time_ParseDuration rawValue in
      match err with
      | Some _ => (value, err)
      | None => (VDuration d, None)
      end
  | TURL =>
      match url_Parse rawValue with
      | inr e => (value, Some e)
      | inl u => (VURL u, None)
      end
  end.

Definition ParseStringOrZero (T : SupportedType) (rawValue : string)
  : Value :=
  let (parsedValue, _) := ParseString T rawValue in
  parsedValue.

Definition ParseStringWithDefault (T : SupportedType) (rawValue : string)
  (dft : Value) : Value * error :=
  let (parsedValue, err) := ParseString T rawValue in
  match err with
  | Some _ => (dft, err)
  | None => (parsedValue, None)
  end.

Definition ParseStringOrDefault (T : SupportedType) (rawValue : string)
  (dft : Value) : Value :=
  let (parsedValue, err) := ParseString T rawValue in
  match err with
  | Some _ => dft
  | None => parsedValue
  end.

End Parsers.
End parser.

(** Finding an element of a concrete chain. *)
Ltac find_in_chain :=
  repeat first [ apply Exists_cons_hd; reflexivity | apply Exists_cons_tl ].

(* ===================================================================== *)
(** ** The standard library's walks, along the chain *)
(* ===================================================================== *)



Lemma errors_is_unfold target c e :
  errors_is target c e =
  and_then (is_here target c e) (fun found =>
  if found then Returns true
  else match err_unwrap e with
       | NoUnwrap => Returns false
       | UnwrapOne None => Returns false
       | UnwrapOne (Some inner) => errors_is target c inner
       | UnwrapMany errs =>
           first_true (fun o => match o with
                                | Some x => errors_is target c x
                                | None => Returns false
                                end) errs
       end).
Proof.
  destruct e as [ty v m f i a u]; unfold is_here; simpl.
  destruct (equals_target target c (MkErr ty v m f i a u)) as [[|]|p];
    simpl; trivial.
  destruct (match i with Some g => g (view target) | None => false end);
    simpl; trivial.
  destruct u as [|[inner|]|errs]; trivial.
  induction errs as [|[x|] errs IH]; simpl; trivial.
  rewrite IH. reflexivity.
Qed.

Lemma chain_unfold e :
  chain e =
  e :: match err_unwrap e with
       | NoUnwrap => []
       | UnwrapOne None => []
       | UnwrapOne (Some inner) => chain inner
       | UnwrapMany errs =>
           flat_map (fun o => match o with
                              | Some x => chain x
                              | None => []
                              end) errs
       end.
Proof.
  destruct e as [ty v m f i a u]; simpl. f_equal.
  destruct u as [|[inner|]|errs]; trivial.
  induction errs as [|[x|] errs IH]; simpl; trivial.
  now rewrite IH.
Qed.



Lemma first_true_app {A} (f : A -> Outcome bool) l1 l2 :
  first_true f (l1 ++ l2)%list =
  and_then (first_true f l1) (fun found =>
  if found then Returns true else first_true f l2).
Proof.
  induction l1 as [|x l1 IH]; simpl; trivial.
  destruct (f x) as [[|]|p]; simpl; trivial.
Qed.

(** The three ways a walk can end. *)
Lemma first_true_none {A} (f : A -> Outcome bool) l :
  Forall (fun x => f x = Returns false) l -> first_true f l = Returns false.
Proof.
  induction 1 as [|x l Hx _ IH]; simpl; trivial. now rewrite Hx.
Qed.

Lemma first_true_at {A} (f : A -> Outcome bool) pre x post :
  Forall (fun y => f y = Returns false) pre ->
  first_true f (pre ++ x :: post)%list =
  and_then (f x) (fun found =>
  if found then Returns true else first_true f post).
Proof.
  intros Hpre. rewrite first_true_app, (first_true_none _ _ Hpre).
  reflexivity.
Qed.

Lemma first_true_cases {A} (f : A -> Outcome bool) l :
  Forall (fun x => f x = Returns false) l
  \/ (exists pre x post, l = (pre ++ x :: post)%list
        /\ Forall (fun y => f y = Returns false) pre /\ f x = Returns true)
  \/ (exists pre x post p, l = (pre ++ x :: post)%list
        /\ Forall (fun y => f y = Returns false) pre /\ f x = Panics p).
Proof.
  induction l as [|x l IH].
  - left. constructor.
  - destruct (f x) as [[|]|p] eqn:Hx.
    + right; left. exists [], x, l. repeat split; trivial.
    + destruct IH as [IH|[(pre & y & post & -> & Hpre & Hy)
                         |(pre & y & post & p & -> & Hpre & Hy)]].
      * left. now constructor.
      * right; left. exists (x :: pre), y, post.
        repeat split; trivial. now constructor.
      * right; right. exists (x :: pre), y, post, p.
        repeat split; trivial. now constructor.
    + right; right. exists [], x, l, p. repeat split; trivial.
Qed.

Lemma first_true_true_iff {A} (f : A -> Outcome bool) l :
  first_true f l = Returns true
  <-> exists pre x post, l = (pre ++ x :: post)%list
        /\ Forall (fun y => f y = Returns false) pre /\ f x = Returns true.
Proof.
  split.
  - intros H.
    destruct (first_true_cases f l)
      as [Hnone|[Hhit|(pre & x & post & p & -> & Hpre & Hx)]]; trivial.
    + rewrite (first_true_none _ _ Hnone) in H. discriminate.
    + rewrite (first_true_at _ _ _ _ Hpre), Hx in H. discriminate.
  - intros (pre & x & post & -> & Hpre & Hx).
    now rewrite (first_true_at _ _ _ _ Hpre), Hx.
Qed.

Lemma first_true_panics_iff {A} (f : A -> Outcome bool) l p :
  first_true f l = Panics p
  <-> exists pre x post, l = (pre ++ x :: post)%list
        /\ Forall (fun y => f y = Returns false) pre /\ f x = Panics p.
Proof.
  split.
  - intros H.
    destruct (first_true_cases f l)
      as [Hnone|[(pre & x & post & -> & Hpre & Hx)
                |(pre & x & post & q & -> & Hpre & Hx)]].
    + rewrite (first_true_none _ _ Hnone) in H. discriminate.
    + rewrite (first_true_at _ _ _ _ Hpre), Hx in H. discriminate.
    + rewrite (first_true_at _ _ _ _ Hpre), Hx in H. injection H as ->.
      now exists pre, x, post.
  - intros (pre & x & post & -> & Hpre & Hx).
    now rewrite (first_true_at _ _ _ _ Hpre), Hx.
Qed.

(** A walk on which no test panics returns. *)
Lemma first_true_safe {A} (f : A -> Outcome bool) l :
  Forall (fun x => exists r, f x = Returns r) l ->
  exists r, first_true f l = Returns r.
Proof.
  induction 1 as [|x l [r Hr] _ [r' IH]]; simpl; eauto.
  rewrite Hr. destruct r; simpl; eauto.
Qed.

(** A walk on which no test panics succeeds as soon as one test does. *)
Lemma first_true_Exists {A} (f : A -> Outcome bool) l :
  Forall (fun x => exists r, f x = Returns r) l ->
  Exists (fun x => f x = Returns true) l ->
  first_true f l = Returns true.
Proof.
  intros Hsafe Hex.
  induction Hex as [x l Hx|x l _ IH]; simpl.
  - now rewrite Hx.
  - inversion Hsafe as [|? ? [r Hr] Hrest]; subst. rewrite Hr.
    destruct r; simpl; auto.
Qed.

(** [errors.Is] is decided by the first element of the chain at which the
    test made at one element succeeds or panics. *)
Lemma errors_is_chain target c e :
  errors_is target c e = first_true (is_here target c) (chain e).
Proof.
  induction e using Err_ind;
    rewrite errors_is_unfold, chain_unfold; simpl;
    destruct (is_here target c _) as [[|]|p]; simpl; trivial.
  induction H as [|[x|] errs Hx _ IH]; simpl; trivial.
  now rewrite first_true_app, Hx, IH.
Qed.


(* ===================================================================== *)
(** ** The loop of HandleError, one matcher at a time *)
(* ===================================================================== *)

Lemma range_matchers_cons err m rest :
  range_matchers err (m :: rest) =
  match matches err m with
  | Returns true =>
      ([Tested m; Invoked m err], handled (call (Handler m) err))
  | Returns false =>
      (Tested m :: log (range_matchers err rest),
       outcome (range_matchers err rest))
  | Panics p => ([Tested m], Panics p)
  end.
Proof.
  unfold matches, handled. cbn [range_matchers].
  destruct (IsSentinel m).
  - destruct (assert_error (ErrorType m)) as [sentinelErr [|]]; cbn.
    + destruct (errors_Is err sentinelErr) as [[|]|p]; cbn; trivial.
      now destruct (call (Handler m) err).
    + now destruct (range_matchers err rest).
  - destruct (reflect_New (reflect_TypeOf (ErrorType m))) as [tv|p]; cbn;
      trivial.
    destruct (errors_As err (ConcreteTarget (rt_type tv))
                (rt_implements_error tv)) as [[t|]|p]; cbn; trivial.
    now destruct (call (Handler m) err).
Qed.

Lemma range_matchers_none err M :
  none_matches err M ->
  range_matchers err M = (map Tested M, Returns (false, err)).
Proof.
  induction 1 as [|m M Hm _ IH]; trivial.
  now rewrite range_matchers_cons, Hm, IH.
Qed.

Lemma range_matchers_first err pre m post :
  first_match err pre m ->
  range_matchers err (pre ++ m :: post) =
  (log_of_match err pre m, handled (call (Handler m) err)).
Proof.
  intros [Hpre Hm]. unfold log_of_match.
  induction Hpre as [|m' pre Hm' _ IH]; simpl app.
  - now rewrite range_matchers_cons, Hm.
  - now rewrite range_matchers_cons, Hm', IH.
Qed.

Lemma range_matchers_panic err pre m post p :
  none_matches err pre -> matches err m = Panics p ->
  range_matchers err (pre ++ m :: post) =
  ((map Tested pre ++ [Tested m])%list, Panics p).
Proof.
  intros Hpre Hm.
  induction Hpre as [|m' pre Hm' _ IH]; simpl app.
  - now rewrite range_matchers_cons, Hm.
  - now rewrite range_matchers_cons, Hm', IH.
Qed.

(** Every list of matchers falls under one of the three lemmas above. *)
Lemma range_matchers_cases err M :
  none_matches err M
  \/ (exists pre m post, M = (pre ++ m :: post)%list /\ first_match err pre m)
  \/ (exists pre m post p, M = (pre ++ m :: post)%list
        /\ none_matches err pre /\ matches err m = Panics p).
Proof.
  induction M as [|m M IH].
  - left. constructor.
  - destruct (matches err m) as [[|]|p] eqn:Hm.
    + right; left. exists [], m, M. repeat split; trivial. constructor.
    + destruct IH as [IH|[(pre & m' & post & -> & Hpre & Hm')
                         |(pre & m' & post & p & -> & Hpre & Hm')]].
      * left. now constructor.
      * right; left. exists (m :: pre), m', post.
        repeat split; trivial. now constructor.
      * right; right. exists (m :: pre), m', post, p.
        repeat split; trivial. now constructor.
    + right; right. exists [], m, M, p. repeat split; trivial. constructor.
Qed.

(** On the nil error no test succeeds. *)
Lemma matches_nil_never m : matches None m <> Returns true.
Proof.
  unfold matches. destruct (IsSentinel m).
  - destruct (ErrorType m); simpl; discriminate.
  - destruct (ErrorType m) as [|z|ty]; simpl; discriminate.
Qed.

Lemma first_match_unique err pre m post pre' m' post' :
  (pre ++ m :: post)%list = (pre' ++ m' :: post')%list ->
  first_match err pre m -> first_match err pre' m' ->
  pre = pre' /\ m = m' /\ post = post'.
Proof.
  intros Heq [Hpre Hm] [Hpre' Hm'].
  revert pre' Heq Hpre'.
  induction Hpre as [|x pre Hx _ IH]; intros [|y pre'] Heq Hpre'; simpl in Heq.
  - now inversion Heq.
  - inversion Heq; subst. inversion Hpre'; subst. congruence.
  - inversion Heq; subst. congruence.
  - inversion Heq; subst. inversion Hpre'; subst.
    destruct (IH pre' H1 H3) as (-> & -> & ->). auto.
Qed.

Lemma HandleError_some (e : Err) M :
  HandleError (Some e) M = range_matchers (Some e) M.
Proof. reflexivity. Qed.

Lemma outcome_range_cons err m rest :
  outcome (range_matchers err (m :: rest)) =
  match matches err m with
  | Returns true => handled (call (Handler m) err)
  | Returns false => outcome (range_matchers err rest)
  | Panics p => Panics p
  end.
Proof.
  rewrite range_matchers_cons. now destruct (matches err m) as [[|]|p].
Qed.

Lemma range_matchers_same_on err M M' :
  Forall2 (same_on err) M M' ->
  outcome (range_matchers err M) = outcome (range_matchers err M').
Proof.
  induction 1 as [|m m' M M' [Ht Hh] _ IH]; trivial.
  rewrite !outcome_range_cons, <- Ht, <- Hh, IH. reflexivity.
Qed.

(** The function computes a run of the relation, and the relation has no
    other run. *)
Lemma loop_runs_range_matchers err M :
  loop_runs err M (range_matchers err M).
Proof.
  induction M as [|m M IH]; [constructor|].
  rewrite range_matchers_cons.
  destruct (matches err m) as [[|]|p] eqn:Hm.
  - now apply loop_fire.
  - apply loop_next; trivial. now destruct (range_matchers err M).
  - now apply loop_crash.
Qed.

Lemma loop_runs_deterministic err M run1 run2 :
  loop_runs err M run1 -> loop_runs err M run2 -> run1 = run2.
Proof.
  intros H1. revert run2.
  induction H1 as [|m rest Hm|m rest l o Hm _ IH|m rest p Hm];
    intros run2 H2; inversion H2; subst; try congruence.
  match goal with
  | H : loop_runs err rest _ |- _ => apply IH in H; congruence
  end.
Qed.

(* ===================================================================== *)
(** ** The dispatch core *)
(* ===================================================================== *)

(** C1. First match wins. For a non-nil error [e] and a list in which [m]
    is the first matcher whose test succeeds on [e] (the tests of the
    matchers [pre] before it fail), [HandleError] calls the handler of
    [m] on [e] and returns [(true, result of that handler)]. The log of the
    run is the tests of [pre] and of [m] followed by that one call: only
    matchers up to [m] are tested and only the handler of [m] runs,
    whatever [post] holds, so that the run is the run on [pre ++ [m]]. *)
Theorem HandleError_first_match_wins (e : Err) pre m post :
  first_match (Some e) pre m ->
  HandleError (Some e) (pre ++ m :: post) =
    (log_of_match (Some e) pre m, handled (call (Handler m) (Some e)))
  /\ (forall r, call (Handler m) (Some e) = Returns r ->
        outcome (HandleError (Some e) (pre ++ m :: post)) = Returns (true, r))
  /\ (forall m', In (Tested m') (log (HandleError (Some e) (pre ++ m :: post)))
                 -> In m' (pre ++ [m]))
  /\ (forall m' arg,
        In (Invoked m' arg) (log (HandleError (Some e) (pre ++ m :: post)))
        -> m' = m /\ arg = Some e)
  /\ HandleError (Some e) (pre ++ m :: post) = HandleError (Some e) (pre ++ [m]).
Proof.
  intros Hfirst. rewrite !HandleError_some.
  rewrite !(range_matchers_first _ _ _ _ Hfirst).
  split; [reflexivity|]. split; [|split; [|split; [|reflexivity]]].
  - intros r Hr. cbn. now rewrite Hr.
  - intros m'. unfold log_of_match. cbn [log fst].
    rewrite !in_app_iff, in_map_iff.
    intros [(x & [= ->] & Hx)|[[= ->]|[Hx|[]]]]; cbn; auto. discriminate.
  - intros m' arg. unfold log_of_match. cbn [log fst].
    rewrite in_app_iff, in_map_iff.
    intros [(x & Hx & _)|[Hx|[[= -> ->]|[]]]]; try discriminate. auto.
Qed.

(** C2. No match. For a non-nil error [e] and a list of which no matcher
    matches [e], [HandleError] returns [(false, e)]: the error handed in,
    not nil and not another value. Every matcher was tested and no handler
    was called. *)
Theorem HandleError_no_match (e : Err) M :
  none_matches (Some e) M ->
  HandleError (Some e) M = (map Tested M, Returns (false, Some e)).
Proof.
  intros Hnone. rewrite HandleError_some.
  now apply range_matchers_none.
Qed.

(** C3. The nil error. For every list of matchers, the empty one included,
    [HandleError(nil, M)] returns [(true, nil)] and its log is empty: no
    matcher is tested and no handler called. *)
Theorem HandleError_nil M :
  HandleError None M = ([], Returns (true, None))
  /\ HandleError None [] = ([], Returns (true, None)).
Proof. split; reflexivity. Qed.

(** C9. Dispatch is deterministic. [HandleError] computes a run of the
    dispatch, and two runs on the same inputs are the same run, with the
    same result. When the result is [(true, r)], [r] is what the handler of
    the first matcher of [M] that matches [e] returns on [e], and for a
    non-nil [e] there is such a matcher. Nothing but the behaviour of the
    tests and of the handlers on [e] enters the result: lists that agree
    on [e] matcher by matcher give the same outcome. *)
Theorem HandleError_deterministic (e : error) M :
  dispatch_runs e M (HandleError e M)
  /\ (forall run1 run2,
        dispatch_runs e M run1 -> dispatch_runs e M run2 -> run1 = run2)
  /\ (forall r, outcome (HandleError e M) = Returns (true, r) ->
        (forall pre m post, M = (pre ++ m :: post)%list ->
           first_match e pre m -> call (Handler m) e = Returns r)
        /\ (e <> None ->
            exists pre m post, M = (pre ++ m :: post)%list
                               /\ first_match e pre m))
  /\ (forall M', Forall2 (same_on e) M M' ->
        outcome (HandleError e M) = outcome (HandleError e M')).
Proof.
  split; [|split; [|split]].
  - destruct e; constructor. apply loop_runs_range_matchers.
  - intros run1 run2 H1 H2. inversion H1; subst; inversion H2; subst; trivial.
    eapply loop_runs_deterministic; eassumption.
  - intros r Hr. split.
    + intros pre m post -> Hfirst.
      destruct e as [x|]; [|now destruct Hfirst as [_ ?%matches_nil_never]].
      rewrite HandleError_some, (range_matchers_first _ _ _ _ Hfirst) in Hr.
      cbn in Hr. destruct (call (Handler m) (Some x)); cbn in Hr; congruence.
    + intros Hne. destruct e as [x|]; [|congruence].
      rewrite HandleError_some in Hr.
      destruct (range_matchers_cases (Some x) M)
        as [Hnone|[Hfirst|(pre & m & post & p & -> & Hpre & Hm)]]; trivial.
      * rewrite (range_matchers_none _ _ Hnone) in Hr. discriminate.
      * rewrite (range_matchers_panic _ _ _ _ _ Hpre Hm) in Hr. discriminate.
  - intros M' Hsame. destruct e; trivial.
    rewrite !HandleError_some. now apply range_matchers_same_on.
Qed.

(** C10. The names that are not deprecated are the deprecated functions:
    [Handle] is [HandleError], [MustHandle] is [HandleErrorOrDie] and
    [HandleOr] is [HandleErrorOrDefault], on every input. *)
Theorem aliases_agree :
  (Handle = HandleError
   /\ MustHandle = HandleErrorOrDie
   /\ HandleOr = HandleErrorOrDefault)
  /\ forall err dft matchers,
      Handle err matchers = HandleError err matchers
      /\ MustHandle err matchers = HandleErrorOrDie err matchers
      /\ HandleOr err dft matchers = HandleErrorOrDefault err dft matchers.
Proof. repeat split. Qed.

(* ===================================================================== *)
(** ** Malformed matchers *)
(* ===================================================================== *)

(** Under the sentinel kind, a rule that is not an error value fails the
    type assertion: the matcher is passed over. *)
Lemma malformed_sentinel_matcher_skipped (e : Err) v h rest :
  snd (assert_error v) = false ->
  let m := {| ErrorType := v; Handler := h; IsSentinel := true |} in
  matches (Some e) m = Returns false
  /\ HandleError (Some e) (m :: rest) =
     (Tested m :: log (HandleError (Some e) rest),
      outcome (HandleError (Some e) rest)).
Proof.
  intros Hv m.
  assert (Hm : matches (Some e) m = Returns false).
  { unfold matches, m; cbn. destruct (assert_error v) as [s ok].
    cbn in Hv. now subst ok. }
  split; trivial.
  now rewrite !HandleError_some, range_matchers_cons, Hm.
Qed.

(** C4. A malformed matcher of the typed kind is not passed over the way
    one of the sentinel kind is: for every non-nil error, a matcher whose
    rule is the nil interface stops the dispatch with the panic of
    [reflect.New], and one whose rule is a value of a type without [Error]
    with the panic of [errors.As]; the matchers after it are not
    reached. *)
Theorem malformed_typed_matcher_panics (e : Err) h rest :
  HandleError (Some e)
    ({| ErrorType := AnyNil; Handler := h; IsSentinel := false |} :: rest) =
    ([Tested {| ErrorType := AnyNil; Handler := h; IsSentinel := false |}],
     Panics (PanicString "reflect: New(nil)"))
  /\ forall ty,
      HandleError (Some e)
        ({| ErrorType := AnyOther ty; Handler := h; IsSentinel := false |}
           :: rest) =
      ([Tested {| ErrorType := AnyOther ty; Handler := h;
                  IsSentinel := false |}],
       Panics (PanicString
                 "errors: *target must be interface or implement error")).
Proof. split; reflexivity. Qed.

(* ===================================================================== *)
(** ** The variants *)
(* ===================================================================== *)

Lemma HandleErrorOrDie_unfold err M :
  HandleErrorOrDie err M =
  match HandleError err M with
  | (l, Returns (true, r)) => (l, Returns r)
  | (l, Returns (false, r)) =>
      (l, Panics (PanicString
            ("Unhandled error of type " ++ fmt_T r ++ ": " ++ fmt_v r)))
  | (l, Panics p) => (l, Panics p)
  end.
Proof.
  unfold HandleErrorOrDie.
  destruct (HandleError err M) as [l [[[|] r]|p]]; cbn; trivial;
    now rewrite app_nil_r.
Qed.

Lemma HandleErrorOrDefault_unfold err dft M :
  HandleErrorOrDefault err dft M =
  match HandleError err M with
  | (l, Returns (true, r)) => (l, Returns r)
  | (l, Returns (false, r)) =>
      match dft with
      | None => (l, Returns None)
      | Some d => ((l ++ [InvokedDefault r])%list, d r)
      end
  | (l, Panics p) => (l, Panics p)
  end.
Proof.
  unfold HandleErrorOrDefault.
  destruct (HandleError err M) as [l [[[|] r]|p]]; cbn; trivial;
    try now rewrite app_nil_r.
  destruct dft as [d|]; cbn; trivial. now rewrite app_nil_r.
Qed.

(** A panic raised while a matcher is tested or inside a handler passes
    through [HandleErrorOrDie] as it is. *)
Lemma HandleErrorOrDie_propagates err M p :
  outcome (HandleError err M) = Panics p ->
  outcome (HandleErrorOrDie err M) = Panics p.
Proof.
  rewrite HandleErrorOrDie_unfold.
  destruct (HandleError err M) as [l [[[|] r]|q]]; cbn; congruence.
Qed.

Lemma first_match_not_none err pre m post :
  first_match err pre m -> ~ none_matches err (pre ++ m :: post).
Proof.
  intros [_ Hm] Hnone.
  apply Forall_app in Hnone as [_ Hnone].
  inversion Hnone; subst. congruence.
Qed.

Lemma handled_returns o res :
  handled o = Returns res -> exists r, o = Returns r /\ res = (true, r).
Proof.
  destruct o as [r|p]; cbn; intros H; [|discriminate].
  exists r. split; congruence.
Qed.

Lemma append_assoc (a b c : string) : ((a ++ b) ++ c = a ++ b ++ c)%string.
Proof. induction a as [|x a IH]; simpl; [reflexivity|now rewrite IH]. Qed.

Lemma append_empty (a : string) : (a ++ EmptyString = a)%string.
Proof. induction a as [|x a IH]; simpl; [reflexivity|now rewrite IH]. Qed.

(** C5. When neither the test of a matcher nor a handler panics, that is
    when [HandleError] returns: [HandleErrorOrDie] panics exactly when the
    error is not nil and no matcher matches it, and the value of that
    panic is a string in which the dynamic type of the error and its
    string form, as [%T] and [%v] print them, occur; when a matcher
    matches it returns what the handler of the first such matcher
    returns, and on the nil error it returns nil. When the test of a
    matcher or a handler panics, [HandleErrorOrDie] does not return
    either: it ends with that panic, after the same tests and calls. *)
Theorem HandleErrorOrDie_spec (err : error) M :
  (forall res, outcome (HandleError err M) = Returns res ->
     dies_iff_unmatched err M
     /\ (forall e, err = Some e -> none_matches err M ->
           exists text,
             outcome (HandleErrorOrDie err M) = Panics (PanicString text)
             /\ text = "Unhandled error of type " ++ fmt_T err
                         ++ ": " ++ fmt_v err
             /\ occurs_in (type_name (err_type e)) text
             /\ occurs_in (fmt_v err) text)
     /\ (forall pre m post, M = (pre ++ m :: post)%list ->
           first_match err pre m ->
           exists r, call (Handler m) err = Returns r
                     /\ outcome (HandleErrorOrDie err M) = Returns r)
     /\ (err = None -> outcome (HandleErrorOrDie err M) = Returns None))
  /\ (forall p, outcome (HandleError err M) = Panics p ->
        HandleErrorOrDie err M = (log (HandleError err M), Panics p)
        /\ is_panic (outcome (HandleErrorOrDie err M)) = true).
Proof.
  split.
  2:{ intros p Hp. rewrite HandleErrorOrDie_unfold.
      destruct (HandleError err M) as [l [[[|] r]|q]]; cbn in *;
        try discriminate.
      injection Hp as ->. auto. }
  intros res Hres. unfold dies_iff_unmatched.
  rewrite HandleErrorOrDie_unfold.
  destruct err as [e|].
  2:{ cbn. repeat split; try discriminate; try tauto.
      intros pre m post _ [_ Hm]. now apply matches_nil_never in Hm. }
  rewrite HandleError_some in *.
  destruct (range_matchers_cases (Some e) M)
    as [Hnone|[(pre & m & post & -> & Hfirst)
              |(pre & m & post & p & -> & Hpre & Hm)]].
  - rewrite (range_matchers_none _ _ Hnone). cbn.
    split; [|split; [|split]].
    + split; [intros _; split; [discriminate|trivial]|reflexivity].
    + intros x [= <-] _. eexists. split; [reflexivity|].
      split; [reflexivity|]. split.
      * exists "Unhandled error of type ", (": " ++ fmt_v (Some e)).
        reflexivity.
      * exists ("Unhandled error of type " ++ type_name (err_type e) ++ ": "),
          EmptyString.
        rewrite append_empty, !append_assoc. reflexivity.
    + intros pre m post -> Hfirst.
      now apply first_match_not_none in Hnone.
    + discriminate.
  - rewrite (range_matchers_first _ _ _ _ Hfirst) in *. cbn in Hres.
    apply handled_returns in Hres as (r & Hr & ->). rewrite Hr. cbn.
    split; [|split; [|split]].
    + split; [discriminate|].
      intros [_ Hnone]. now apply first_match_not_none in Hnone.
    + intros x _ Hnone. now apply first_match_not_none in Hnone.
    + intros pre' m' post' Heq Hfirst'.
      destruct (first_match_unique _ _ _ _ _ _ _ Heq Hfirst Hfirst')
        as (_ & <- & _).
      exists r. split; trivial.
    + discriminate.
  - rewrite (range_matchers_panic _ _ _ _ _ Hpre Hm) in Hres. discriminate.
Qed.

(** C6. For a non-nil error [e] that no matcher of [M] matches,
    [HandleErrorOrDefault(e, nil, M)] returns nil and calls nothing, and
    with a default handler [d] it ends as [d(e)] does, [d] being called
    once, on [e] itself, after the tests. When a matcher matches, it ends
    as the handler of the first such matcher does and the log holds no
    call of the default handler. *)
Theorem HandleErrorOrDefault_spec (e : Err) :
  (forall M, none_matches (Some e) M ->
     HandleErrorOrDefault (Some e) None M = (map Tested M, Returns None))
  /\ (forall d M, none_matches (Some e) M ->
        HandleErrorOrDefault (Some e) (Some d) M =
        ((map Tested M ++ [InvokedDefault (Some e)])%list, d (Some e)))
  /\ (forall dft pre m post, first_match (Some e) pre m ->
        HandleErrorOrDefault (Some e) dft (pre ++ m :: post) =
        (log_of_match (Some e) pre m, call (Handler m) (Some e))
        /\ forall arg, ~ In (InvokedDefault arg)
                         (log (HandleErrorOrDefault (Some e) dft
                                 (pre ++ m :: post)))).
Proof.
  repeat split.
  - intros M Hnone.
    now rewrite HandleErrorOrDefault_unfold, HandleError_some,
      (range_matchers_none _ _ Hnone).
  - intros d M Hnone.
    now rewrite HandleErrorOrDefault_unfold, HandleError_some,
      (range_matchers_none _ _ Hnone).
  - rewrite HandleErrorOrDefault_unfold, HandleError_some,
      (range_matchers_first _ _ _ _ H).
    now destruct (call (Handler m) (Some e)).
  - intros arg.
    rewrite HandleErrorOrDefault_unfold, HandleError_some,
      (range_matchers_first _ _ _ _ H).
    assert (Hlog : ~ In (InvokedDefault arg) (log_of_match (Some e) pre m)).
    { unfold log_of_match. rewrite in_app_iff, in_map_iff.
      intros [(x & Hx & _)|[Hx|[Hx|[]]]]; discriminate. }
    now destruct (call (Handler m) (Some e)).
Qed.

(* ===================================================================== *)
(** ** The two kinds of matcher along the chain *)
(* ===================================================================== *)

(** [==] on structs and arrays, one pair of fields at a time. *)
Lemma value_eq_composite xs ys :
  value_eq (Composite xs) (Composite ys) =
  match xs, ys with
  | [], [] => Returns true
  | x :: xs', y :: ys' =>
      and_then (value_eq x y) (fun equal =>
      if equal then value_eq (Composite xs') (Composite ys')
      else Returns false)
  | _, _ => Returns false
  end.
Proof. destruct xs, ys; reflexivity. Qed.

(** What [==] finds equal to something holds comparable contents only. *)
Lemma value_eq_true_comparable b a :
  value_eq a b = Returns true -> comparable_contents b = true.
Proof.
  revert a. induction b as [z| | |ty v IH|parts IH] using Value_ind;
    intros a; trivial.
  - destruct a; simpl; try discriminate.
    destruct (GoType_eqb ty0 ty); [|discriminate].
    destruct (type_comparable ty); [|discriminate].
    intros H. now rewrite (IH _ H).
  - destruct a as [| | | |xs]; try discriminate.
    revert xs. induction IH as [|y ys Hy _ IHys]; intros xs;
      rewrite value_eq_composite; destruct xs as [|x xs];
      try discriminate; trivial.
    destruct (value_eq x y) as [[|]|p] eqn:Hxy; simpl; try discriminate.
    intros H. rewrite (Hy _ Hxy). exact (IHys _ H).
Qed.

(** On comparable contents [==] does not panic. *)
Lemma comparable_contents_safe b a :
  comparable_contents b = true -> exists r, value_eq a b = Returns r.
Proof.
  revert a. induction b as [z| | |ty v IH|parts IH] using Value_ind;
    intros a Hb.
  - destruct a; simpl; eauto.
  - destruct a; simpl; eauto.
  - destruct a; simpl; eauto.
  - simpl in Hb. apply andb_true_iff in Hb as [Hty Hv].
    destruct a; simpl; eauto.
    destruct (GoType_eqb ty0 ty); eauto. rewrite Hty. now apply IH.
  - destruct a as [| | | |xs]; simpl; eauto.
    change (exists r, value_eq (Composite xs) (Composite parts) = Returns r).
    simpl in Hb. revert xs.
    induction IH as [|y ys Hy _ IHys]; intros xs;
      rewrite value_eq_composite; destruct xs as [|x xs]; eauto.
    simpl in Hb. apply andb_true_iff in Hb as [Hyc Hys].
    destruct (Hy x Hyc) as [[|] ->]; simpl; eauto.
Qed.

Lemma go_equal_true x S :
  go_equal x S = Returns true ->
  type_comparable (err_type S) = true
  /\ comparable_contents (err_val S) = true.
Proof.
  unfold go_equal.
  destruct (GoType_eqb (err_type x) (err_type S)); [|discriminate].
  destruct (type_comparable (err_type S)); [|discriminate].
  intros H. split; trivial. now apply value_eq_true_comparable in H.
Qed.

Lemma go_equal_safe x S :
  type_comparable (err_type S) = true ->
  comparable_contents (err_val S) = true ->
  exists r, go_equal x S = Returns r.
Proof.
  intros Hc Hv. unfold go_equal. rewrite Hc.
  destruct (GoType_eqb (err_type x) (err_type S)); eauto.
  now apply comparable_contents_safe.
Qed.

Lemma go_equal_true_safe y S :
  go_equal y S = Returns true -> safe_sentinel S = true.
Proof.
  intros H. apply go_equal_true in H as [_ Hv].
  unfold safe_sentinel. rewrite Hv. apply orb_true_r.
Qed.

Lemma equals_target_safe S x :
  safe_sentinel S = true ->
  exists r, equals_target S (type_comparable (err_type S)) x = Returns r.
Proof.
  unfold safe_sentinel, equals_target. intros Hsafe.
  destruct (type_comparable (err_type S)) eqn:Hc; eauto.
  now apply go_equal_safe.
Qed.

Lemma is_here_safe S x :
  safe_sentinel S = true ->
  exists r, is_here S (type_comparable (err_type S)) x = Returns r.
Proof.
  intros Hsafe. unfold is_here.
  destruct (equals_target_safe S x Hsafe) as [r ->]. simpl. eauto.
Qed.

(** The three outcomes of the test made at one element. *)
Lemma is_here_hit S x :
  is_here S (type_comparable (err_type S)) x = Returns true
  <-> sentinel_hit S x.
Proof.
  unfold is_here, equals_target, sentinel_hit, not_equal_to. split.
  - destruct (type_comparable (err_type S)) eqn:Hc.
    + destruct (go_equal x S) as [[|]|p]; simpl; try discriminate; auto.
      destruct (err_is x) as [f|]; [|discriminate].
      intros [= Hf]. right. split; auto. now exists f.
    + simpl. destruct (err_is x) as [f|]; [|discriminate].
      intros [= Hf]. right. split; auto. now exists f.
  - intros [Heq|[Hne (f & Hf & Hacc)]].
    + destruct (go_equal_true _ _ Heq) as [-> _]. now rewrite Heq.
    + rewrite Hf, Hacc.
      destruct Hne as [->| ->]; simpl; [reflexivity|].
      destruct (type_comparable (err_type S)); simpl; now rewrite ?orb_true_r.
Qed.

Lemma is_here_miss S x :
  is_here S (type_comparable (err_type S)) x = Returns false
  <-> sentinel_miss S x.
Proof.
  unfold is_here, equals_target, sentinel_miss, not_equal_to. split.
  - destruct (type_comparable (err_type S)) eqn:Hc.
    + destruct (go_equal x S) as [[|]|p]; simpl; try discriminate.
      intros H. split; auto.
      intros g Hg. rewrite Hg in H. now injection H.
    + simpl. intros H. split; auto.
      intros g Hg. rewrite Hg in H. now injection H.
  - intros [Hne Hall].
    assert (Hm : match err_is x with
                 | Some f => f (view S)
                 | None => false
                 end = false).
    { destruct (err_is x) as [f|]; auto. }
    rewrite Hm. destruct Hne as [->| ->]; simpl; [reflexivity|].
    now destruct (type_comparable (err_type S)).
Qed.

Lemma is_here_crash S x p :
  is_here S (type_comparable (err_type S)) x = Panics p
  <-> sentinel_crash S x p.
Proof.
  unfold is_here, equals_target, sentinel_crash. split.
  - destruct (type_comparable (err_type S)); [|discriminate].
    destruct (go_equal x S) as [r|q]; simpl; [discriminate|].
    intros [= ->]. auto.
  - intros [-> ->]. reflexivity.
Qed.

Lemma chain_contains_is e S :
  chain_contains e S ->
  errors_is S (type_comparable (err_type S)) e = Returns true.
Proof.
  intros H. rewrite errors_is_chain.
  apply Exists_exists in H as (x & Hx & Heq).
  apply first_true_Exists.
  - apply Forall_forall. intros y _.
    apply is_here_safe. now apply go_equal_true_safe in Heq.
  - apply Exists_exists. exists x. split; trivial.
    apply is_here_hit. now left.
Qed.

Lemma chain_contains_wrap e S a msg :
  chain_contains e S -> chain_contains (wrap a msg e) S.
Proof. intros H. now apply Exists_cons_tl. Qed.

Lemma chain_contains_In e S :
  go_equal S S = Returns true -> In S (chain e) -> chain_contains e S.
Proof.
  intros Heq Hin. apply Exists_exists. now exists S.
Qed.

Lemma chain_contains_self S :
  go_equal S S = Returns true -> chain_contains S S.
Proof.
  intros Heq. apply chain_contains_In; trivial.
  rewrite chain_unfold. now left.
Qed.

Lemma matches_OnSentinelError e S h :
  matches (Some e) (OnSentinelError (Some S) h) =
  errors_is S (type_comparable (err_type S)) e.
Proof. reflexivity. Qed.

Lemma matches_OnCustomError e T h :
  matches (Some e) (OnCustomError (ConcreteTarget T) h) =
  Returns (match errors_as (ConcreteTarget T) e with
           | Some _ => true
           | None => false
           end).
Proof. reflexivity. Qed.








(** C7, for a sentinel that [==] finds equal to itself. Sentinel
    matching follows the chain. For every sentinel value [S], handler [h]
    and error [e] whose chain holds a value [== S], the dispatch of [e]
    against the one matcher [OnSentinelError(S, h)] tests it, calls [h]
    once, on [e] itself, and returns [(true, h(e))]. When [S == S] holds,
    as it does for the values [errors.New] makes, every [e] with [S] in
    its chain is such an error, and wrapping keeps [S] in the chain, so
    that with a handler that returns a fixed [r] the dispatch of [S]
    wrapped twice returns [(true, r)]. *)
Theorem sentinel_chain_aware (S e : Err) (h : ErrorHandler) :
  (chain_contains e S ->
   HandleError (Some e) [OnSentinelError (Some S) h] =
     ([Tested (OnSentinelError (Some S) h);
       Invoked (OnSentinelError (Some S) h) (Some e)],
      handled (call h (Some e))))
  /\ (go_equal S S = Returns true ->
      finds_sentinel e S h
      /\ (forall a1 msg1 a2 msg2,
            chain_contains (wrap a1 msg1 (wrap a2 msg2 S)) S)
      /\ (forall a1 msg1 a2 msg2 r,
            outcome (HandleError (Some (wrap a1 msg1 (wrap a2 msg2 S)))
                       [OnSentinelError (Some S)
                          (Some (fun _ => Returns r))]) =
            Returns (true, r))).
Proof.
  assert (Hrun : forall x, chain_contains x S ->
            HandleError (Some x) [OnSentinelError (Some S) h] =
            ([Tested (OnSentinelError (Some S) h);
              Invoked (OnSentinelError (Some S) h) (Some x)],
             handled (call h (Some x)))).
  { intros x Hx.
    rewrite HandleError_some, range_matchers_cons, matches_OnSentinelError.
    now rewrite (chain_contains_is _ _ Hx). }
  split; [apply Hrun|].
  intros Heq.
  assert (Hw : forall a1 msg1 a2 msg2,
             chain_contains (wrap a1 msg1 (wrap a2 msg2 S)) S).
  { intros. now apply chain_contains_wrap, chain_contains_wrap,
      chain_contains_self. }
  split; [|split; trivial].
  - intros Hin. apply Hrun. now apply chain_contains_In.
  - intros. rewrite HandleError_some, outcome_range_cons.
    rewrite matches_OnSentinelError.
    now rewrite (chain_contains_is _ _ (Hw a1 msg1 a2 msg2)).
Qed.


(* ===================================================================== *)
(** ** The properties on concrete runs *)
(* ===================================================================== *)

Import Examples.

(** The second of three matchers that would match fires; the third,
    whose handler panics, and a malformed one after it are not reached. *)
Lemma HandleError_first_match_wins_run :
  first_match (Some lookup)
    [OnSentinelError (Some ErrTimeout) keep; sentinel_int keep]
    (OnSentinelError (Some ErrNotFound) (replace_with (Some R)))
  /\ outcome (HandleError (Some lookup)
                ([OnSentinelError (Some ErrTimeout) keep; sentinel_int keep]
                 ++ OnSentinelError (Some ErrNotFound)
                      (replace_with (Some R))
                 :: [OnSentinelError (Some ErrNotFound) boom;
                     typed_nil keep])) =
     Returns (true, Some R).
Proof.
  assert (H : first_match (Some lookup)
                [OnSentinelError (Some ErrTimeout) keep; sentinel_int keep]
                (OnSentinelError (Some ErrNotFound)
                   (replace_with (Some R)))).
  { split; [repeat constructor | reflexivity]. }
  split; [exact H|].
  destruct (HandleError_first_match_wins lookup _ _
              [OnSentinelError (Some ErrNotFound) boom; typed_nil keep] H)
    as (_ & Hr & _).
  apply Hr. reflexivity.
Defined.

Lemma HandleError_no_match_run :
  none_matches (Some ErrTimeout)
    [OnSentinelError (Some ErrNotFound) keep;
     OnCustomError (ConcreteTarget StatusError) report_code;
     sentinel_int keep]
  /\ outcome (HandleError (Some ErrTimeout)
                [OnSentinelError (Some ErrNotFound) keep;
                 OnCustomError (ConcreteTarget StatusError) report_code;
                 sentinel_int keep]) =
     Returns (false, Some ErrTimeout).
Proof.
  assert (H : none_matches (Some ErrTimeout)
                [OnSentinelError (Some ErrNotFound) keep;
                 OnCustomError (ConcreteTarget StatusError) report_code;
                 sentinel_int keep]).
  { repeat constructor. }
  split; [exact H|].
  rewrite (HandleError_no_match ErrTimeout _ H). reflexivity.
Defined.

(** A handler that panics: [HandleErrorOrDie] does not return although a
    matcher matched. *)
Lemma HandleErrorOrDie_handler_panic :
  ~ dies_iff_unmatched (Some ErrNotFound)
      [OnSentinelError (Some ErrNotFound) boom].
Proof.
  intros [Hdies _].
  destruct (Hdies eq_refl) as [_ Hnone].
  inversion Hnone as [|m M Hm _]; subst.
  discriminate Hm.
Qed.

(** An unmatched error of a type with a method [Format], and a handler
    that panics. *)
Lemma HandleErrorOrDie_spec_run :
  outcome (HandleError (Some traced)
             [OnSentinelError (Some ErrNotFound) keep]) =
  Returns (false, Some traced)
  /\ dies_iff_unmatched (Some traced)
       [OnSentinelError (Some ErrNotFound) keep]
  /\ outcome (HandleErrorOrDie (Some traced)
                [OnSentinelError (Some ErrNotFound) keep]) =
     Panics (PanicString
               "Unhandled error of type *tracedError: disk full (store.go:12)")
  /\ outcome (HandleError (Some ErrNotFound)
                [OnSentinelError (Some ErrNotFound) boom]) =
     Panics (PanicString "boom")
  /\ HandleErrorOrDie (Some ErrNotFound)
       [OnSentinelError (Some ErrNotFound) boom] =
     ([Tested (OnSentinelError (Some ErrNotFound) boom);
       Invoked (OnSentinelError (Some ErrNotFound) boom) (Some ErrNotFound)],
      Panics (PanicString "boom")).
Proof.
  assert (H : outcome (HandleError (Some traced)
                         [OnSentinelError (Some ErrNotFound) keep]) =
              Returns (false, Some traced)) by reflexivity.
  assert (Hnone : none_matches (Some traced)
                    [OnSentinelError (Some ErrNotFound) keep]).
  { repeat constructor. }
  assert (Hboom : outcome (HandleError (Some ErrNotFound)
                             [OnSentinelError (Some ErrNotFound) boom]) =
                  Panics (PanicString "boom")) by reflexivity.
  destruct (HandleErrorOrDie_spec (Some traced)
              [OnSentinelError (Some ErrNotFound) keep]) as [Hret _].
  destruct (Hret _ H) as (Hiff & Hmsg & _).
  destruct (Hmsg traced eq_refl Hnone) as (text & Hout & Htext & _).
  destruct (HandleErrorOrDie_spec (Some ErrNotFound)
              [OnSentinelError (Some ErrNotFound) boom]) as [_ Hpanic].
  destruct (Hpanic _ Hboom) as [Hrun _].
  split; [exact H|]. split; [exact Hiff|]. split.
  { rewrite Hout, Htext. reflexivity. }
  split; [exact Hboom|].
  rewrite Hrun. reflexivity.
Defined.

Lemma HandleErrorOrDefault_spec_run :
  none_matches (Some ErrTimeout) [OnSentinelError (Some ErrNotFound) keep]
  /\ outcome (HandleErrorOrDefault (Some ErrTimeout) None
                [OnSentinelError (Some ErrNotFound) keep]) = Returns None
  /\ outcome (HandleErrorOrDefault (Some ErrTimeout)
                (replace_with (Some R))
                [OnSentinelError (Some ErrNotFound) keep]) =
     Returns (Some R)
  /\ first_match (Some lookup) [] (OnSentinelError (Some ErrNotFound) keep)
  /\ HandleErrorOrDefault (Some lookup) boom
       ([] ++ OnSentinelError (Some ErrNotFound) keep :: []) =
     ([Tested (OnSentinelError (Some ErrNotFound) keep);
       Invoked (OnSentinelError (Some ErrNotFound) keep) (Some lookup)],
      Returns (Some lookup)).
Proof.
  assert (Hnone : none_matches (Some ErrTimeout)
                    [OnSentinelError (Some ErrNotFound) keep]).
  { repeat constructor. }
  assert (Hfirst : first_match (Some lookup) []
                     (OnSentinelError (Some ErrNotFound) keep)).
  { split; [constructor | reflexivity]. }
  destruct (HandleErrorOrDefault_spec ErrTimeout) as (Hnil & Hdft & _).
  destruct (HandleErrorOrDefault_spec lookup) as (_ & _ & Hmatch).
  split; [exact Hnone|]. split.
  { now rewrite (Hnil _ Hnone). }
  split.
  { unfold replace_with. now rewrite (Hdft _ _ Hnone). }
  split; [exact Hfirst|].
  destruct (Hmatch boom _ _ [] Hfirst) as [Heq _]. exact Heq.
Defined.

(** A sentinel two levels down a tree of joined errors, and a sentinel of
    a struct type under two layers. *)
Lemma sentinel_chain_aware_run :
  chain_contains joined ErrNotFound
  /\ outcome (HandleError (Some joined)
                [OnSentinelError (Some ErrNotFound)
                   (replace_with (Some R))]) =
     Returns (true, Some R)
  /\ go_equal withCount withCount = Returns true
  /\ finds_sentinel (wrap 60 "open" withCount) withCount keep
  /\ outcome (HandleError (Some (wrap 60 "open" (wrap 61 "read" withCount)))
                [OnSentinelError (Some withCount)
                   (Some (fun _ => Returns (Some R)))]) =
     Returns (true, Some R).
Proof.
  assert (H : chain_contains joined ErrNotFound).
  { unfold chain_contains. cbn [chain joined]. find_in_chain. }
  assert (Heq : go_equal withCount withCount = Returns true) by reflexivity.
  destruct (sentinel_chain_aware ErrNotFound joined
              (replace_with (Some R))) as [Hrun _].
  destruct (sentinel_chain_aware withCount (wrap 60 "open" withCount) keep)
    as [_ Hself].
  destruct (Hself Heq) as (Hfinds & _ & Hwrapped).
  split; [exact H|]. split.
  { rewrite (Hrun H). reflexivity. }
  split; [exact Heq|]. split; [exact Hfinds|].
  apply Hwrapped.
Defined.

(** A sentinel of a slice type under two layers: it is in the chain, and
    [errors.Is], which compares with [==] only when the type of the
    target is comparable, does not find it. *)
Lemma sentinel_of_slice_type_not_found :
  ~ finds_sentinel (wrap 70 "validate" (wrap 71 "decode" missingFields))
      missingFields keep.
Proof.
  intros Hfinds.
  assert (Hin : In missingFields
                  (chain (wrap 70 "validate"
                            (wrap 71 "decode" missingFields)))).
  { cbn. auto. }
  specialize (Hfinds Hin). discriminate Hfinds.
Qed.



Lemma HandleError_deterministic_run :
  outcome (HandleError (Some lookup)
             [OnSentinelError (Some ErrTimeout) keep;
              OnSentinelError (Some ErrNotFound) (replace_with (Some R))]) =
  Returns (true, Some R)
  /\ exists pre m post,
      [OnSentinelError (Some ErrTimeout) keep;
       OnSentinelError (Some ErrNotFound) (replace_with (Some R))] =
      (pre ++ m :: post)%list
      /\ first_match (Some lookup) pre m
      /\ call (Handler m) (Some lookup) = Returns (Some R).
Proof.
  assert (H : outcome (HandleError (Some lookup)
                [OnSentinelError (Some ErrTimeout) keep;
                 OnSentinelError (Some ErrNotFound)
                   (replace_with (Some R))]) =
              Returns (true, Some R)) by reflexivity.
  split; [exact H|].
  destruct (HandleError_deterministic (Some lookup)
              [OnSentinelError (Some ErrTimeout) keep;
               OnSentinelError (Some ErrNotFound) (replace_with (Some R))])
    as (_ & _ & Hfirst & _).
  destruct (Hfirst _ H) as (Hcall & Hex).
  destruct Hex as (pre & m & post & Heq & Hm); [discriminate|].
  exists pre, m, post. split; [exact Heq|]. split; [exact Hm|].
  exact (Hcall pre m post Heq Hm).
Defined.

(** A value of a type that is not comparable is not found by
    [errors.Is], not even in itself. *)
Example sentinel_of_uncomparable_type :
  HandleError (Some missingFields)
    [OnSentinelError (Some missingFields) keep] =
  ([Tested (OnSentinelError (Some missingFields) keep)],
   Returns (false, Some missingFields)).
Proof. reflexivity. Qed.

(** A sentinel of a comparable struct type with a slice behind an
    interface: the comparison [errors.Is] makes panics. *)
Example sentinel_with_uncomparable_contents :
  HandleError (Some withTags) [OnSentinelError (Some withTags) keep] =
  ([Tested (OnSentinelError (Some withTags) keep)],
   Panics (PanicRuntime "comparing uncomparable type []string")).
Proof. reflexivity. Qed.

(** The nil pointer of an error type, unmatched: the message of
    [HandleErrorOrDie] carries the text [fmt] prints for it. *)
Example unhandled_nil_pointer :
  outcome (HandleErrorOrDie (Some nilStatus)
             [OnSentinelError (Some ErrNotFound) keep]) =
  Panics (PanicString "Unhandled error of type *StatusError: <nil>").
Proof. reflexivity. Qed.

(** [OnSentinelError(nil, h)] never matches. *)
Example sentinel_nil_never_matches :
  matches (Some ErrTimeout) (OnSentinelError None keep) = Returns false.
Proof. reflexivity. Qed.

(** [OnCustomError[error](h)]: the stored zero value is the nil
    interface, and the dispatch panics in [reflect.New]. *)
Example interface_type_argument_panics :
  outcome (HandleError (Some ErrTimeout)
             [OnCustomError (InterfaceTarget (fun _ => true)) None]) =
  Panics (PanicString "reflect: New(nil)").
Proof. reflexivity. Qed.

(** A matcher with the nil handler matches and the call panics. *)
Example nil_handler_panics :
  outcome (HandleError (Some ErrTimeout)
             [OnSentinelError (Some ErrTimeout) None]) =
  Panics (PanicRuntime "invalid memory address or nil pointer dereference").
Proof. reflexivity. Qed.

(** A typed matcher whose rule is an [int]. *)
Example typed_int_matcher_run :
  outcome (HandleError (Some ErrTimeout) [typed_int keep]) =
  Panics (PanicString "errors: *target must be interface or implement error").
Proof. reflexivity. Qed.

(** The malformed typed matcher in front of one that would match. *)
Example malformed_typed_matcher_run :
  HandleError (Some ErrTimeout)
    [typed_nil keep; OnSentinelError (Some ErrTimeout) keep] =
  ([Tested (typed_nil keep)], Panics (PanicString "reflect: New(nil)")).
Proof. reflexivity. Qed.


(* ===================================================================== *)
(** ** More on the dispatcher *)
(* ===================================================================== *)

(** X4. [HandleError] reports [false] only for an error that is not nil
    and that every matcher of the list was tested against without a
    match, and the error it then returns is the one it was given. *)
Theorem HandleError_false_only_unmatched (err : error) M l r :
  HandleError err M = (l, Returns (false, r)) ->
  err <> None /\ r = err /\ none_matches err M /\ l = map Tested M.
Proof.
  destruct err as [e|]; [|discriminate].
  rewrite HandleError_some. intros Hrun.
  destruct (range_matchers_cases (Some e) M)
    as [Hnone|[(pre & m & post & -> & Hfirst)
              |(pre & m & post & p & -> & Hpre & Hm)]].
  - rewrite (range_matchers_none _ _ Hnone) in Hrun.
    injection Hrun as <- <-. repeat split; trivial. discriminate.
  - rewrite (range_matchers_first _ _ _ _ Hfirst) in Hrun.
    injection Hrun as _ Hrun.
    destruct (call (Handler m) (Some e)); discriminate.
  - rewrite (range_matchers_panic _ _ _ _ _ Hpre Hm) in Hrun. discriminate.
Qed.

Lemma range_matchers_app_none err M1 M2 :
  none_matches err M1 ->
  range_matchers err (M1 ++ M2) =
  ((map Tested M1 ++ log (range_matchers err M2))%list,
   outcome (range_matchers err M2)).
Proof.
  induction 1 as [|m M1 Hm _ IH]; simpl app.
  - now destruct (range_matchers err M2).
  - now rewrite range_matchers_cons, Hm, IH.
Qed.

(** X5. Lists of matchers compose. When no matcher of [M1] matches [e],
    the dispatch on [M1 ++ M2] is the tests of [M1] followed by the
    dispatch on [M2]; and when the dispatch on [M] does not end with
    [(false, e)], appending matchers to [M] changes nothing at all. *)
Theorem HandleError_app (e : Err) M1 M2 :
  (none_matches (Some e) M1 ->
   HandleError (Some e) (M1 ++ M2) =
   ((map Tested M1 ++ log (HandleError (Some e) M2))%list,
    outcome (HandleError (Some e) M2)))
  /\ (outcome (HandleError (Some e) M1) <> Returns (false, Some e) ->
      HandleError (Some e) (M1 ++ M2) = HandleError (Some e) M1).
Proof.
  rewrite !HandleError_some. split.
  - apply range_matchers_app_none.
  - intros Hstop.
    destruct (range_matchers_cases (Some e) M1)
      as [Hnone|[(pre & m & post & -> & Hfirst)
                |(pre & m & post & p & -> & Hpre & Hm)]].
    + rewrite (range_matchers_none _ _ Hnone) in Hstop. now elim Hstop.
    + rewrite <- app_assoc. simpl app.
      now rewrite !(range_matchers_first _ _ _ _ Hfirst).
    + rewrite <- app_assoc. simpl app.
      now rewrite !(range_matchers_panic _ _ _ _ _ Hpre Hm).
Qed.

Lemma Forall_is_here_miss S l :
  Forall (fun y => is_here S (type_comparable (err_type S)) y = Returns false)
    l
  <-> Forall (sentinel_miss S) l.
Proof.
  split; intros H; eapply Forall_impl; try exact H;
    intros y Hy; now apply is_here_miss.
Qed.

(** X6. What a sentinel matcher matches. On a non-nil error the test of
    [OnSentinelError(s, h)] is decided at the first element of the chain,
    in the order [errors.Is] walks it, that answers to [s] or whose
    comparison with [s] panics: the test succeeds exactly when [s] is not
    nil and an element of the chain is [== s], or has an [Is] method that
    accepts [s], no element before it answering or panicking; it panics
    exactly when the comparison of an element with [s] panics, no element
    before it answering or panicking. For a sentinel that is safe to
    compare with, the test does not panic and succeeds exactly when some
    element of the chain answers. A matcher for the nil sentinel matches
    nothing. *)
Theorem sentinel_matcher_matches_iff (e : Err) (s : error) (h : ErrorHandler) :
  (matches (Some e) (OnSentinelError s h) = Returns true
   <-> exists S pre x post,
         s = Some S /\ chain e = (pre ++ x :: post)%list
         /\ Forall (sentinel_miss S) pre /\ sentinel_hit S x)
  /\ (forall p,
        matches (Some e) (OnSentinelError s h) = Panics p
        <-> exists S pre x post,
              s = Some S /\ chain e = (pre ++ x :: post)%list
              /\ Forall (sentinel_miss S) pre /\ sentinel_crash S x p)
  /\ (forall S, s = Some S -> safe_sentinel S = true ->
        (matches (Some e) (OnSentinelError s h) = Returns true
         <-> Exists (sentinel_hit S) (chain e))
        /\ (matches (Some e) (OnSentinelError s h) = Returns true
            \/ matches (Some e) (OnSentinelError s h) = Returns false))
  /\ matches (Some e) (OnSentinelError None h) = Returns false.
Proof.
  split; [|split; [|split; [|reflexivity]]].
  - destruct s as [S|].
    + rewrite matches_OnSentinelError, errors_is_chain, first_true_true_iff.
      split.
      * intros (pre & x & post & Hc & Hpre & Hx).
        exists S, pre, x, post. repeat split; trivial.
        -- now apply Forall_is_here_miss.
        -- now apply is_here_hit.
      * intros (S' & pre & x & post & [= <-] & Hc & Hpre & Hx).
        exists pre, x, post. repeat split; trivial.
        -- now apply Forall_is_here_miss.
        -- now apply is_here_hit.
    + split; [discriminate|]. intros (S & ? & ? & ? & HS & _). discriminate.
  - intros p. destruct s as [S|].
    + rewrite matches_OnSentinelError, errors_is_chain, first_true_panics_iff.
      split.
      * intros (pre & x & post & Hc & Hpre & Hx).
        apply is_here_crash in Hx.
        exists S, pre, x, post.
        split; [reflexivity|]. split; [exact Hc|].
        split; [now apply Forall_is_here_miss|exact Hx].
      * intros (S' & pre & x & post & [= <-] & Hc & Hpre & Hx).
        exists pre, x, post. repeat split; trivial.
        -- now apply Forall_is_here_miss.
        -- now apply is_here_crash.
    + split; [discriminate|]. intros (S & ? & ? & ? & HS & _). discriminate.
  - intros S -> Hsafe.
    rewrite matches_OnSentinelError, errors_is_chain.
    assert (Hall : Forall (fun x => exists r,
                     is_here S (type_comparable (err_type S)) x = Returns r)
                     (chain e)).
    { apply Forall_forall. intros x _. now apply is_here_safe. }
    split.
    + split.
      * rewrite first_true_true_iff.
        intros (pre & x & post & Hc & _ & Hx). rewrite Hc.
        apply Exists_app. right. apply Exists_cons_hd.
        now apply is_here_hit.
      * intros Hex. apply first_true_Exists; trivial.
        eapply Exists_impl; [|exact Hex].
        intros x Hx. now apply is_here_hit.
    + destruct (first_true_safe _ _ Hall) as [[|] ->]; auto.
Qed.





(** X9. With matchers that come out of the builders, the typed one at a
    concrete type, the dispatch panics in two ways only: some matcher had
    matched and the panic is the one of its handler, raised on the error
    being dispatched; or the comparison [errors.Is] makes between an
    element of the chain and the sentinel of a matcher panics, that
    sentinel holding, behind an interface, a value of a type that is not
    comparable. With sentinels that are safe to compare with, a panic of
    [HandleError] is therefore the panic of a handler. *)
Theorem HandleError_panics_only_in_handler (e : Err) M p :
  Forall well_built M ->
  outcome (HandleError (Some e) M) = Panics p ->
  ((exists pre m post,
      M = (pre ++ m :: post)%list
      /\ first_match (Some e) pre m
      /\ call (Handler m) (Some e) = Panics p)
   \/ (exists pre S h post x,
         M = (pre ++ OnSentinelError (Some S) h :: post)%list
         /\ none_matches (Some e) pre
         /\ In x (chain e)
         /\ sentinel_crash S x p
         /\ safe_sentinel S = false))
  /\ (Forall safe_matcher M ->
      exists pre m post,
        M = (pre ++ m :: post)%list
        /\ first_match (Some e) pre m
        /\ call (Handler m) (Some e) = Panics p).
Proof.
  intros Hbuilt Hp. rewrite HandleError_some in Hp.
  destruct (range_matchers_cases (Some e) M)
    as [Hnone|[(pre & m & post & -> & Hfirst)
              |(pre & m & post & q & -> & Hpre & Hm)]].
  - rewrite (range_matchers_none _ _ Hnone) in Hp. discriminate.
  - assert (Hh : exists pre0 m0 post0,
               (pre ++ m :: post)%list = (pre0 ++ m0 :: post0)%list
               /\ first_match (Some e) pre0 m0
               /\ call (Handler m0) (Some e) = Panics p).
    { exists pre, m, post. repeat split; try apply Hfirst.
      rewrite (range_matchers_first _ _ _ _ Hfirst) in Hp. cbn in Hp.
      destruct (call (Handler m) (Some e)); cbn in Hp; congruence. }
    split; [now left|now intros _].
  - rewrite (range_matchers_panic _ _ _ _ _ Hpre Hm) in Hp.
    injection Hp as ->.
    apply Forall_app in Hbuilt as [_ Hbuilt].
    inversion Hbuilt as [|? ? [(s & h & ->)|(T & h & ->)] _]; subst.
    2:{ rewrite matches_OnCustomError in Hm. discriminate. }
    destruct s as [S|]; [|discriminate].
    rewrite matches_OnSentinelError, errors_is_chain in Hm.
    apply first_true_panics_iff in Hm as (cpre & x & cpost & Hc & _ & Hx).
    assert (Hunsafe : safe_sentinel S = false).
    { destruct (safe_sentinel S) eqn:Hsafe; trivial.
      destruct (is_here_safe S x Hsafe) as [r Hr]. congruence. }
    split.
    + right. exists pre, S, h, post, x. repeat split; trivial.
      * rewrite Hc. apply in_elt.
      * now apply is_here_crash in Hx as [? _].
      * now apply is_here_crash in Hx as [_ ?].
    + intros Hsafe. apply Forall_app in Hsafe as [_ Hsafe].
      inversion Hsafe as [|? ? Hs _]; subst.
      specialize (Hs S eq_refl eq_refl). congruence.
Qed.

(** X10. The typed builder at an interface type. The zero value the
    builder stores is then the nil interface, and every dispatch of a
    non-nil error that reaches the matcher panics in [reflect.New]; this is
    what [OnCustomError] and [OnType] give for a handler of type
    [func(error) error], whose type argument is [error]. *)
Theorem typed_builder_at_interface_panics (e : Err) implemented_by h pre rest :
  none_matches (Some e) pre ->
  outcome (HandleError (Some e)
             (pre ++ OnCustomError (InterfaceTarget implemented_by) h
                  :: rest)) =
    Panics (PanicString "reflect: New(nil)")
  /\ outcome (HandleError (Some e)
                (pre ++ OnType (InterfaceTarget implemented_by) h :: rest)) =
     Panics (PanicString "reflect: New(nil)").
Proof.
  intros Hpre. rewrite !HandleError_some. unfold OnType.
  assert (Hm : matches (Some e)
                 (OnCustomError (InterfaceTarget implemented_by) h) =
               Panics (PanicString "reflect: New(nil)")) by reflexivity.
  now rewrite (range_matchers_panic _ _ _ rest _ Hpre Hm).
Qed.

(** X11. The three entry points agree on a handled error: when
    [HandleError] returns [(true, r)], [HandleErrorOrDie] and
    [HandleErrorOrDefault], with any default handler, return [r] after the
    same tests and calls, the default handler not being called; on the nil
    error both return nil and nothing is tested or called. *)
Theorem variants_agree_when_handled (err : error) M l r :
  HandleError err M = (l, Returns (true, r)) ->
  HandleErrorOrDie err M = (l, Returns r)
  /\ (forall dft, HandleErrorOrDefault err dft M = (l, Returns r))
  /\ HandleErrorOrDie None M = ([], Returns None)
  /\ (forall dft, HandleErrorOrDefault None dft M = ([], Returns None)).
Proof.
  intros Hrun. repeat split.
  - now rewrite HandleErrorOrDie_unfold, Hrun.
  - intros dft. now rewrite HandleErrorOrDefault_unfold, Hrun.
Qed.

(** X12. Neither variant intercepts a panic: when the test of a matcher
    or a handler panics inside [HandleError], [HandleErrorOrDie] and
    [HandleErrorOrDefault] end with the same panic after the same log, and
    the default handler is not called. *)
Theorem variants_pass_panics_through (err : error) M l p :
  HandleError err M = (l, Panics p) ->
  HandleErrorOrDie err M = (l, Panics p)
  /\ (forall dft, HandleErrorOrDefault err dft M = (l, Panics p))
  /\ (forall arg, ~ In (InvokedDefault arg) l).
Proof.
  intros Hrun. repeat split.
  - now rewrite HandleErrorOrDie_unfold, Hrun.
  - intros dft. now rewrite HandleErrorOrDefault_unfold, Hrun.
  - intros arg Hin. destruct err as [e|]; [|discriminate].
    rewrite HandleError_some in Hrun.
    destruct (range_matchers_cases (Some e) M)
      as [Hnone|[(pre & m & post & -> & Hfirst)
                |(pre & m & post & q & -> & Hpre & Hm)]].
    + rewrite (range_matchers_none _ _ Hnone) in Hrun. discriminate.
    + rewrite (range_matchers_first _ _ _ _ Hfirst) in Hrun.
      injection Hrun as <- _. unfold log_of_match in Hin.
      rewrite in_app_iff, in_map_iff in Hin.
      destruct Hin as [(x & Hx & _)|[Hx|[Hx|[]]]]; discriminate.
    + rewrite (range_matchers_panic _ _ _ _ _ Hpre Hm) in Hrun.
      injection Hrun as <- _.
      rewrite in_app_iff, in_map_iff in Hin.
      destruct Hin as [(x & Hx & _)|[Hx|[]]]; discriminate.
Qed.

(* ===================================================================== *)
(** ** NumLen counts decimal digits *)
(* ===================================================================== *)

Section NumLen_facts.
Import number.
Local Open Scope Z_scope.

Lemma loop_positive_step ty n c :
  loop_positive ty n c =
  if 0 <? n then loop_positive ty (Z.quot n 10) (wrap ty (c + 1)) else c.
Proof.
  rewrite loop_positive_equation_1.
  destruct (Z_lt_dec 0 n); destruct (Z.ltb_spec 0 n); try lia;
    reflexivity.
Qed.

Lemma loop_negative_step ty n c :
  loop_negative ty n c =
  if n <? 0 then loop_negative ty (Z.quot n 10) (wrap ty (c + 1)) else c.
Proof.
  rewrite loop_negative_equation_1.
  destruct (Z_lt_dec n 0); destruct (Z.ltb_spec n 0); try lia;
    reflexivity.
Qed.

(** The loop on a negative number makes the steps of the loop on its
    absolute value. *)
Lemma loop_negative_opp ty (k : nat) :
  forall n c, Z.abs n < 2 ^ Z.of_nat k ->
              loop_negative ty n c = loop_positive ty (- n) c.
Proof.
  induction k as [|k IH]; intros n c Hn;
    rewrite loop_negative_step, loop_positive_step.
  - change (2 ^ Z.of_nat 0) with 1 in Hn.
    destruct (Z.ltb_spec n 0), (Z.ltb_spec 0 (- n)); try lia; reflexivity.
  - destruct (Z.ltb_spec n 0), (Z.ltb_spec 0 (- n)); try lia; trivial.
    rewrite Z.quot_opp_l by lia. apply IH.
    rewrite Nat2Z.inj_succ, Z.pow_succ_r in Hn by lia.
    rewrite <- (Z.quot_abs n 10) by lia.
    apply Z.quot_lt_upper_bound; lia.
Qed.

Lemma wrap_in_range ty z :
  supported ty -> in_range ty z -> wrap ty z = z.
Proof.
  unfold supported, in_range, wrap, min_value, max_value.
  intros Hb Hz. destruct (int_signed ty);
    destruct Hb as [Hb|[Hb|[Hb|Hb]]]; rewrite Hb in *; simpl in *;
    try (rewrite Z.mod_small; lia).
Qed.

Lemma bits_le_max ty : supported ty -> int_bits ty <= max_value ty.
Proof.
  unfold supported, max_value. intros Hb.
  destruct (int_signed ty); destruct Hb as [Hb|[Hb|[Hb|Hb]]];
    rewrite Hb; simpl; lia.
Qed.

Lemma min_value_nonpos ty : supported ty -> min_value ty <= 0.
Proof.
  unfold supported, min_value. intros Hb.
  destruct (int_signed ty); destruct Hb as [Hb|[Hb|[Hb|Hb]]];
    rewrite ?Hb; simpl; lia.
Qed.

Lemma abs_lt_pow_bits ty n :
  supported ty -> in_range ty n -> Z.abs n < 2 ^ int_bits ty.
Proof.
  unfold supported, in_range, min_value, max_value. intros Hb Hn.
  destruct (int_signed ty); destruct Hb as [Hb|[Hb|[Hb|Hb]]];
    rewrite Hb in *; simpl in *; lia.
Qed.

(** The loop on a positive number adds the number of its decimal digits
    to the counter, which does not wrap around. *)
Lemma loop_positive_digits ty (k : nat) :
  supported ty ->
  forall n c,
    0 < n < 2 ^ Z.of_nat k -> 0 <= c -> c + Z.of_nat k <= max_value ty ->
    exists d, 1 <= d <= Z.of_nat k
              /\ loop_positive ty n c = c + d
              /\ 10 ^ (d - 1) <= n < 10 ^ d.
Proof.
  intros Hty. induction k as [|k IH]; intros n c Hn Hc Hmax.
  - change (2 ^ Z.of_nat 0) with 1 in Hn. lia.
  - rewrite loop_positive_step.
    destruct (Z.ltb_spec 0 n); [|lia].
    rewrite Nat2Z.inj_succ in *. rewrite Z.pow_succ_r in Hn by lia.
    rewrite wrap_in_range; trivial.
    2:{ pose proof (min_value_nonpos ty Hty). unfold in_range. lia. }
    destruct (Z.eq_dec (Z.quot n 10) 0) as [Hq|Hq].
    + rewrite Hq, loop_positive_step. simpl.
      exists 1. repeat split; try lia.
      apply Z.quot_small_iff in Hq; lia.
    + assert (Hq0 : 0 < Z.quot n 10).
      { pose proof (Z.quot_pos n 10). lia. }
      assert (Hq2 : Z.quot n 10 < 2 ^ Z.of_nat k).
      { apply Z.quot_lt_upper_bound; lia. }
      destruct (IH (Z.quot n 10) (c + 1)) as (d & Hd & Hr & Hlo & Hhi);
        try lia.
      exists (d + 1). rewrite Hr. repeat split; try lia.
      * replace (d + 1 - 1) with (Z.succ (d - 1)) by lia.
        rewrite Z.pow_succ_r by lia.
        pose proof (Z.mul_quot_le n 10). lia.
      * replace (d + 1) with (Z.succ d) by lia.
        rewrite Z.pow_succ_r by lia.
        pose proof (Z.quot_rem' n 10).
        pose proof (Z.rem_bound_pos n 10). lia.
Qed.

Lemma NumLen_abs ty n :
  supported ty -> in_range ty n -> NumLen ty n = NumLen ty (Z.abs n).
Proof.
  intros Hty Hn. unfold NumLen.
  destruct (Z.eqb_spec n 0) as [->|Hne]; trivial.
  destruct (Z.eqb_spec (Z.abs n) 0); [lia|].
  destruct (Z.ltb_spec n 0), (Z.ltb_spec (Z.abs n) 0); try lia.
  - rewrite (loop_negative_opp ty (Z.to_nat (int_bits ty))).
    + now rewrite Z.abs_neq by lia.
    + rewrite Z2Nat.id; [now apply abs_lt_pow_bits|].
      destruct Hty as [Hb|[Hb|[Hb|Hb]]]; lia.
  - now rewrite Z.abs_eq by lia.
Qed.

Lemma NumLen_digits ty n :
  supported ty -> in_range ty n ->
  (n = 0 -> NumLen ty n = 1)
  /\ (n <> 0 ->
      10 ^ (NumLen ty n - 1) <= Z.abs n < 10 ^ NumLen ty n)
  /\ 1 <= NumLen ty n <= 20
  /\ in_range ty (NumLen ty n).
Proof.
  intros Hty Hn.
  assert (Hbits : 8 <= int_bits ty <= 64)
    by (destruct Hty as [Hb|[Hb|[Hb|Hb]]]; lia).
  destruct (Z.eq_dec n 0) as [->|Hne].
  { repeat split; try (cbn; lia).
    - pose proof (min_value_nonpos ty Hty). cbn. lia.
    - pose proof (bits_le_max ty Hty). cbn. lia. }
  rewrite (NumLen_abs ty n Hty Hn).
  assert (Habs : 0 < Z.abs n < 2 ^ Z.of_nat (Z.to_nat (int_bits ty))).
  { rewrite Z2Nat.id by lia. pose proof (abs_lt_pow_bits ty n Hty Hn). lia. }
  destruct (loop_positive_digits ty (Z.to_nat (int_bits ty)) Hty
              (Z.abs n) 0 Habs) as (d & Hd & Hr & Hlo & Hhi).
  { lia. }
  { rewrite Z2Nat.id by lia. pose proof (bits_le_max ty Hty). lia. }
  assert (Hnum : NumLen ty (Z.abs n) = d).
  { unfold NumLen. destruct (Z.eqb_spec (Z.abs n) 0); [lia|].
    destruct (Z.ltb_spec (Z.abs n) 0); [lia|]. cbn zeta. lia. }
  rewrite Hnum, Z2Nat.id in * by lia.
  assert (Hd20 : d <= 20).
  { assert (H64 : 2 ^ int_bits ty <= 2 ^ 64)
      by (apply Z.pow_le_mono_r; lia).
    assert (Hlt : 10 ^ (d - 1) < 10 ^ 20).
    { pose proof (abs_lt_pow_bits ty n Hty Hn).
      assert (2 ^ 64 < 10 ^ 20) by (vm_compute; reflexivity). lia. }
    apply Z.pow_lt_mono_r_iff in Hlt; lia. }
  split; [lia|]. split; [intros _; lia|]. split; [lia|].
  pose proof (min_value_nonpos ty Hty).
  pose proof (bits_le_max ty Hty). unfold in_range. lia.
Qed.

(** X1. [NumLen] returns the number of decimal digits of the absolute
    value of its argument, for every integer type of the constraint and
    every value of the type, the smallest value of a signed type included:
    1 for zero, and otherwise the [d] between 1 and 20 with
    [10^(d-1) <= |number| < 10^d]; the counter never wraps around. *)
Theorem NumLen_counts_digits ty n :
  supported ty -> in_range ty n ->
  (n = 0 -> NumLen ty n = 1)
  /\ (n <> 0 ->
      10 ^ (NumLen ty n - 1) <= Z.abs n < 10 ^ NumLen ty n)
  /\ 1 <= NumLen ty n <= 20
  /\ in_range ty (NumLen ty n).
Proof. apply NumLen_digits. Qed.

(** X2. The sign does not count: a number and its opposite, when both are
    values of the type, have the same [NumLen]. *)
Theorem NumLen_opp ty n :
  supported ty -> in_range ty n -> in_range ty (- n) ->
  NumLen ty (- n) = NumLen ty n.
Proof.
  intros Hty Hn Hopp.
  rewrite (NumLen_abs ty n Hty Hn), (NumLen_abs ty (- n) Hty Hopp).
  now rewrite Z.abs_opp.
Qed.

(** X3. [NumLen] grows with the absolute value: a value of the type that
    is no larger in absolute value has no more digits. *)
Theorem NumLen_monotone ty a b :
  supported ty -> in_range ty a -> in_range ty b ->
  Z.abs a <= Z.abs b -> NumLen ty a <= NumLen ty b.
Proof.
  intros Hty Ha Hb Hab.
  destruct (NumLen_digits ty a Hty Ha) as (Ha0 & Hda & Ha1 & _).
  destruct (NumLen_digits ty b Hty Hb) as (Hb0 & Hdb & Hb1 & _).
  destruct (Z.eq_dec a 0) as [->|Hane]; [rewrite Ha0; lia|].
  destruct (Z.eq_dec b 0) as [->|Hbne]; [lia|].
  specialize (Hda Hane). specialize (Hdb Hbne).
  destruct (Z_le_gt_dec (NumLen ty a) (NumLen ty b)) as [|Hgt]; trivial.
  exfalso.
  assert (10 ^ NumLen ty b <= 10 ^ (NumLen ty a - 1))
    by (apply Z.pow_le_mono_r; lia).
  lia.
Qed.

End NumLen_facts.

Lemma NumLen_counts_digits_run :
  number.supported (number.MkInt 8 true)
  /\ number.in_range (number.MkInt 8 true) (-128)%Z
  /\ number.NumLen (number.MkInt 8 true) (-128)%Z = 3%Z.
Proof.
  assert (Hty : number.supported (number.MkInt 8 true)) by (left; reflexivity).
  assert (Hn : number.in_range (number.MkInt 8 true) (-128)%Z)
    by (unfold number.in_range; cbn; lia).
  split; [exact Hty|]. split; [exact Hn|].
  destruct (NumLen_counts_digits (number.MkInt 8 true) (-128)%Z Hty Hn)
    as (_ & Hd & Hb & _).
  assert (Hne : (-128 <> 0)%Z) by lia.
  specialize (Hd Hne). cbn [Z.abs] in Hd.
  assert (Hlo : (number.NumLen (number.MkInt 8 true) (-128) - 1 < 3)%Z).
  { apply (Z.pow_lt_mono_r_iff 10); lia. }
  assert (Hhi : (2 < number.NumLen (number.MkInt 8 true) (-128))%Z).
  { apply (Z.pow_lt_mono_r_iff 10); lia. }
  lia.
Defined.

Lemma NumLen_opp_run :
  number.supported (number.MkInt 64 true)
  /\ number.in_range (number.MkInt 64 true) 12345%Z
  /\ number.in_range (number.MkInt 64 true) (- 12345)%Z
  /\ number.NumLen (number.MkInt 64 true) (- 12345)%Z =
     number.NumLen (number.MkInt 64 true) 12345%Z.
Proof.
  assert (Hty : number.supported (number.MkInt 64 true))
    by (right; right; right; reflexivity).
  assert (Hn : number.in_range (number.MkInt 64 true) 12345%Z)
    by (unfold number.in_range; cbn; lia).
  assert (Ho : number.in_range (number.MkInt 64 true) (- 12345)%Z)
    by (unfold number.in_range; cbn; lia).
  split; [exact Hty|]. split; [exact Hn|]. split; [exact Ho|].
  exact (NumLen_opp _ _ Hty Hn Ho).
Defined.

Lemma NumLen_monotone_run :
  number.supported (number.MkInt 16 false)
  /\ number.in_range (number.MkInt 16 false) 999%Z
  /\ number.in_range (number.MkInt 16 false) 65535%Z
  /\ (Z.abs 999 <= Z.abs 65535)%Z
  /\ (number.NumLen (number.MkInt 16 false) 999
      <= number.NumLen (number.MkInt 16 false) 65535)%Z.
Proof.
  assert (Hty : number.supported (number.MkInt 16 false))
    by (right; left; reflexivity).
  assert (Ha : number.in_range (number.MkInt 16 false) 999%Z)
    by (unfold number.in_range; cbn; lia).
  assert (Hb : number.in_range (number.MkInt 16 false) 65535%Z)
    by (unfold number.in_range; cbn; lia).
  assert (Hab : (Z.abs 999 <= Z.abs 65535)%Z) by (cbn; lia).
  split; [exact Hty|]. split; [exact Ha|]. split; [exact Hb|].
  split; [exact Hab|].
  exact (NumLen_monotone _ _ _ Hty Ha Hb Hab).
Defined.

(** The values of the package's own test table. *)
Example NumLen_table :
  number.NumLen (number.MkInt 8 true) (-128)%Z = 3%Z
  /\ number.NumLen (number.MkInt 64 true) (-9223372036854775808)%Z = 19%Z
  /\ number.NumLen (number.MkInt 64 false) 18446744073709551615%Z = 20%Z
  /\ number.NumLen (number.MkInt 32 true) 100000%Z = 6%Z.
Proof. repeat split; reflexivity. Qed.

(* ===================================================================== *)
(** ** The cyclers of package slice *)
(* ===================================================================== *)

Section Cycler_facts.
Import slice.
Local Open Scope nat_scope.

Context {T : Type} (zero : T).
Context {Rand : Type} (IntN : Rand -> nat -> nat * Rand).

#[local] Abbreviation Closure := (@slice.Closure T Rand).
#[local] Abbreviation next := (slice.next zero IntN).
#[local] Abbreviation calls := (slice.calls zero IntN).
#[local] Abbreviation Cycle := (@slice.Cycle T Rand).

Lemma calls_app a b (f : Closure) :
  calls (a + b) f =
  and_then (calls a f) (fun r =>
  and_then (calls b (snd r)) (fun rs =>
  Returns ((fst r ++ fst rs)%list, snd rs))).
Proof.
  revert f. induction a as [|a IH]; intros f; simpl.
  - destruct (calls b f) as [[l g]|p]; reflexivity.
  - destruct (next f) as [[x g]|p]; simpl; trivial.
    rewrite IH. destruct (calls a g) as [[l1 g1]|p]; simpl; trivial.
    destruct (calls b g1) as [[l2 g2]|p]; reflexivity.
Qed.

Lemma item_at_nth (items : list T) i :
  i < List.length items -> item_at items i = Returns (nth i items zero).
Proof.
  intros Hi. unfold item_at.
  destruct (nth_error items i) as [x|] eqn:Hx.
  - now rewrite (nth_error_nth _ _ zero Hx).
  - apply nth_error_None in Hx. lia.
Qed.

Lemma skipn_nth (items : list T) i :
  i < List.length items ->
  skipn i items = nth i items zero :: skipn (S i) items.
Proof.
  revert i. induction items as [|x items IH]; intros i Hi; simpl in *.
  - lia.
  - destruct i as [|i]; trivial. apply IH. lia.
Qed.

Lemma map_nth_seq (items : list T) :
  map (fun k => nth k items zero) (seq 0 (List.length items)) = items.
Proof.
  induction items as [|x items IH]; trivial.
  simpl. f_equal. rewrite <- seq_shift, map_map. exact IH.
Qed.

(** From any position, [CycleNext] returns the items around the slice. *)
Lemma CycleNext_calls (items : list T) n :
  forall i, i < List.length items ->
    calls n (CycleNext items i) =
    Returns (map (fun k => nth ((i + k) mod List.length items) items zero)
               (seq 0 n),
             CycleNext items ((i + n) mod List.length items)).
Proof.
  induction n as [|n IH]; intros i Hi.
  - simpl. rewrite Nat.add_0_r, Nat.mod_small by trivial. reflexivity.
  - cbn [slice.calls slice.next]. rewrite item_at_nth by trivial.
    cbn [and_then snd fst].
    rewrite IH by (apply Nat.mod_upper_bound; lia).
    cbn [and_then snd fst]. f_equal. f_equal.
    + cbn [seq map]. rewrite Nat.add_0_r, (Nat.mod_small i) by trivial.
      f_equal. rewrite <- seq_shift, map_map.
      apply map_ext. intros k.
      rewrite Nat.Div0.add_mod_idemp_l.
      now replace (i + 1 + k) with (i + S k) by lia.
    + rewrite Nat.Div0.add_mod_idemp_l.
      now replace (i + 1 + n) with (i + S n) by lia.
Qed.

(** X13. [Cycle] on a non-empty slice never panics: its [k]-th call,
    counted from 0, returns [items[k mod len(items)]]; and after
    [len(items)] calls, which return the items in their order, the closure
    is again as [Cycle] made it. *)
Theorem Cycle_round_robin (items : list T) :
  items <> [] ->
  (forall n,
      calls n (Cycle items) =
      Returns (map (fun k => nth (k mod List.length items) items zero)
                 (seq 0 n),
               CycleNext items (n mod List.length items)))
  /\ calls (List.length items) (Cycle items) = Returns (items, Cycle items).
Proof.
  intros Hne.
  assert (Hlen : 0 < List.length items) by (destruct items; simpl; [easy|lia]).
  assert (HC : Cycle items = CycleNext items 0).
  { unfold slice.Cycle. destruct (Nat.eqb_spec (List.length items) 0); [lia|easy]. }
  rewrite HC. split.
  - intros n. now rewrite CycleNext_calls.
  - rewrite CycleNext_calls by trivial. cbn [Nat.add].
    rewrite Nat.Div0.mod_same.
    assert (Hmap : map (fun k => nth (k mod List.length items) items zero)
                     (seq 0 (List.length items)) = items).
    { transitivity (map (fun k => nth k items zero)
                      (seq 0 (List.length items)));
        [|apply map_nth_seq].
      apply map_ext_in. intros k Hk. apply in_seq in Hk.
      now rewrite Nat.mod_small by lia. }
    now rewrite Hmap.
Qed.

(** X14. Without items, the closure of [Cycle] and the one of
    [RandomCycle] return the zero value at every call; with one item, the
    closure of [RandomCycle] returns that item at every call, and the
    generator is not consulted. *)
Theorem cyclers_on_short_slices (clock : Rand) (localRand : option Rand)
  (x : T) n :
  calls n (Cycle []) = Returns (repeat zero n, ReturnZero)
  /\ calls n (RandomCycle IntN clock localRand []) =
     Returns (repeat zero n, ReturnZero)
  /\ calls n (RandomCycle IntN clock localRand [x]) =
     Returns (repeat x n, ReturnFirst [x]).
Proof.
  repeat split; cbn [slice.Cycle RandomCycle List.length Nat.eqb];
    induction n as [|n IH]; trivial; simpl; now rewrite IH.
Qed.

Section Rounds.
Hypothesis IntN_range : forall r n, 0 < n -> fst (IntN r n) < n.
Variable items : list T.
#[local] Abbreviation len := (List.length items).

(** Steps that neither reach the end of the slice nor the stop index. *)
Lemma RandomNext_walk r s k :
  forall c, c + k < len ->
            (forall j, 1 <= j <= k -> c + j <> s) ->
            calls k (RandomNext items len r c s) =
            Returns (firstn k (skipn c items), RandomNext items len r (c + k) s).
Proof.
  induction k as [|k IH]; intros c Hck Hstop.
  - simpl. now rewrite Nat.add_0_r.
  - cbn [slice.calls slice.next].
    rewrite item_at_nth by lia. cbn [and_then].
    destruct (Nat.eqb_spec (c + 1) len); [lia|].
    destruct (Nat.eqb_spec (c + 1) s) as [Heq|_];
      [exfalso; apply (Hstop 1); lia|].
    cbn [and_then snd fst]. rewrite IH; try lia.
    2:{ intros j Hj. specialize (Hstop (S j)). lia. }
    cbn [and_then snd fst].
    rewrite (skipn_nth items c) by lia.
    cbn [firstn]. replace (c + 1) with (S c) by lia.
    now replace (S c + k) with (c + S k) by lia.
Qed.

(** From the stop index, or after it, to the end of the slice. *)
Lemma RandomNext_to_end r s c :
  s <= c < len -> 2 <= len ->
  calls (len - c) (RandomNext items len r c s) =
  Returns (skipn c items,
           if s =? 0
           then RandomNext items len (snd (IntN r len))
                  (fst (IntN r len)) (fst (IntN r len))
           else RandomNext items len r 0 s).
Proof.
  intros Hc Hlen.
  replace (len - c) with ((len - 1 - c) + 1) by lia.
  rewrite calls_app, RandomNext_walk by lia.
  cbn [and_then snd fst slice.calls slice.next].
  replace (c + (len - 1 - c)) with (len - 1) by lia.
  rewrite item_at_nth by lia. cbn [and_then].
  replace (len - 1 + 1) with len by lia. rewrite Nat.eqb_refl.
  assert (Hout : (firstn (len - 1 - c) (skipn c items)
                  ++ [nth (len - 1) items zero])%list = skipn c items).
  { rewrite <- (firstn_skipn (len - 1 - c) (skipn c items)) at 2.
    f_equal. rewrite skipn_skipn.
    replace (len - 1 - c + c) with (len - 1) by lia.
    rewrite (skipn_nth items (len - 1)) by lia.
    replace (S (len - 1)) with len by lia.
    now rewrite skipn_all. }
  destruct (Nat.eqb_spec 0 s) as [<-|Hs].
  - destruct (IntN r len) as [s' r']. cbn. now rewrite Hout.
  - destruct (Nat.eqb_spec s 0); [lia|]. cbn. now rewrite Hout.
Qed.

(** From the start of the slice up to the stop index, where a new round
    is drawn. *)
Lemma RandomNext_to_stop r s :
  1 <= s < len ->
  calls s (RandomNext items len r 0 s) =
  Returns (firstn s items,
           RandomNext items len (snd (IntN r len))
             (fst (IntN r len)) (fst (IntN r len))).
Proof.
  intros Hs.
  replace s with ((s - 1) + 1) at 1 by lia.
  rewrite calls_app, RandomNext_walk by lia.
  cbn [and_then snd fst slice.calls slice.next Nat.add].
  rewrite item_at_nth by lia. cbn [and_then].
  replace (s - 1 + 1) with s by lia.
  destruct (Nat.eqb_spec s len); [lia|]. rewrite Nat.eqb_refl.
  destruct (IntN r len) as [s' r']. cbn.
  assert (Hout : (firstn (s - 1) items ++ [nth (s - 1) items zero])%list
                 = firstn s items).
  { rewrite <- (firstn_skipn (s - 1) (firstn s items)).
    rewrite firstn_firstn, Nat.min_l by lia. f_equal.
    rewrite skipn_firstn_comm. replace (s - (s - 1)) with 1 by lia.
    now rewrite (skipn_nth items (s - 1)) by lia. }
  now rewrite Hout.
Qed.

Lemma RandomNext_round r s :
  s < len -> 2 <= len ->
  calls len (RandomNext items len r s s) =
  Returns (rotate s items,
           RandomNext items len (snd (IntN r len))
             (fst (IntN r len)) (fst (IntN r len))).
Proof.
  intros Hs Hlen. unfold rotate.
  replace len with ((len - s) + s) at 1 by lia.
  rewrite calls_app, RandomNext_to_end by lia.
  cbn [and_then snd fst].
  destruct (Nat.eqb_spec s 0) as [->|Hs0].
  - cbn. now rewrite app_nil_r.
  - rewrite RandomNext_to_stop by lia. reflexivity.
Qed.

End Rounds.

(** X15. [RandomCycle] on two items or more, with a generator whose
    [IntN(n)] is below [n]: the closure starts a round at a position [s] of
    the slice; [len(items)] calls from the start of a round never panic and
    return [items] read from [s] on and around the end, hence every item
    once, and they leave the closure at the start of a round again. *)
Theorem RandomCycle_rounds (clock : Rand) (localRand : option Rand)
  (items : list T) :
  (forall r n, 0 < n -> fst (IntN r n) < n) ->
  2 <= List.length items ->
  (exists s, round_start items (RandomCycle IntN clock localRand items) s)
  /\ (forall f s,
        round_start items f s ->
        exists f' s',
          calls (List.length items) f = Returns (rotate s items, f')
          /\ round_start items f' s'
          /\ Permutation (rotate s items) items).
Proof.
  intros Hrange Hlen. split.
  - unfold RandomCycle.
    destruct (List.length items) as [|[|n]] eqn:Hn; try lia.
    pose proof (Hrange (match localRand with
                        | Some r => r
                        | None => clock
                        end) (S (S n))) as Hs.
    destruct (IntN _ (S (S n))) as [s r].
    exists s, r. rewrite Hn. split; trivial. apply Hs. lia.
  - intros f s (r & -> & Hs).
    exists (RandomNext items (List.length items)
              (snd (IntN r (List.length items)))
              (fst (IntN r (List.length items)))
              (fst (IntN r (List.length items)))),
           (fst (IntN r (List.length items))).
    split; [now apply RandomNext_round|]. split.
    + eexists. split; [reflexivity|]. apply Hrange. lia.
    + unfold rotate.
      rewrite <- (firstn_skipn s items) at 3. apply Permutation_app_comm.
Qed.

End Cycler_facts.

(* ===================================================================== *)
(** ** InitMap and UpdateMap *)
(* ===================================================================== *)

Section Map_facts.
Import maps.
Local Open Scope nat_scope.

Context {K V : Type} (K_eq_dec : forall a b : K, {a = b} + {a <> b}).

#[local] Abbreviation Table := (@maps.Table K V).
#[local] Abbreviation Memory := (@maps.Memory K V).
#[local] Abbreviation lookup := (maps.lookup K_eq_dec).
#[local] Abbreviation assign := (maps.assign K_eq_dec).
#[local] Abbreviation merged := (maps.merged K_eq_dec).
#[local] Abbreviation InitMap := (@maps.InitMap K V).
#[local] Abbreviation UpdateMap := (maps.UpdateMap K_eq_dec).
#[local] Abbreviation copy_entries := (maps.copy_entries K_eq_dec).

Lemma lookup_assign k v k' (t : Table) :
  lookup k' (assign k v t) =
  if K_eq_dec k' k then Some v else lookup k' t.
Proof.
  induction t as [|[k0 v0] t IH]; simpl.
  - destruct (K_eq_dec k' k); reflexivity.
  - destruct (K_eq_dec k k0) as [->|Hne]; simpl.
    + destruct (K_eq_dec k' k0); reflexivity.
    + destruct (K_eq_dec k' k0) as [->|Hne'].
      * destruct (K_eq_dec k0 k); congruence.
      * exact IH.
Qed.

Lemma assign_keys k v k' (t : Table) :
  In k' (map fst (assign k v t)) <-> k' = k \/ In k' (map fst t).
Proof.
  induction t as [|[k0 v0] t IH]; simpl.
  - intuition.
  - destruct (K_eq_dec k k0) as [->|Hne]; simpl; [intuition|].
    rewrite IH. intuition.
Qed.

Lemma assign_NoDup k v (t : Table) :
  NoDup (map fst t) -> NoDup (map fst (assign k v t)).
Proof.
  induction t as [|[k0 v0] t IH]; simpl; intros Hnd.
  - repeat constructor. intros [].
  - inversion Hnd as [|? ? Hnotin Hnd']; subst.
    destruct (K_eq_dec k k0) as [->|Hne]; simpl.
    + now constructor.
    + constructor; [|now apply IH].
      rewrite assign_keys. intros [Heq|Hin]; congruence.
Qed.

Lemma lookup_None k (t : Table) :
  lookup k t = None <-> ~ In k (map fst t).
Proof.
  induction t as [|[k0 v0] t IH]; simpl; [intuition|].
  destruct (K_eq_dec k k0) as [->|Hne].
  - split; [discriminate|]. intros H. elim H. now left.
  - rewrite IH. intuition.
Qed.

Lemma lookup_In k v (t : Table) :
  NoDup (map fst t) -> (lookup k t = Some v <-> In (k, v) t).
Proof.
  induction t as [|[k0 v0] t IH]; simpl; intros Hnd.
  - split; [discriminate|intros []].
  - inversion Hnd as [|? ? Hnotin Hnd']; subst.
    destruct (K_eq_dec k k0) as [->|Hne].
    + split.
      * intros [= ->]. now left.
      * intros [[= ->]|Hin]; trivial.
        elim Hnotin. apply in_map_iff. now exists (k0, v).
    + rewrite (IH Hnd'). split; [now right|].
      intros [[= -> ->]|Hin]; [congruence|trivial].
Qed.

(** The order in which the entries of a map object are visited does not
    change what is read at a key. *)
Lemma lookup_Permutation k (t t' : Table) :
  NoDup (map fst t) -> Permutation t t' -> lookup k t = lookup k t'.
Proof.
  intros Hnd Hperm.
  assert (Hnd' : NoDup (map fst t')).
  { eapply Permutation_NoDup; [|exact Hnd]. now apply Permutation_map. }
  destruct (lookup k t) as [v|] eqn:Ht.
  - symmetry. apply (lookup_In k v t' Hnd').
    eapply Permutation_in; [exact Hperm|]. now apply (lookup_In k v t Hnd).
  - symmetry. apply lookup_None. apply lookup_None in Ht.
    intros Hin. apply Ht.
    eapply Permutation_in; [|exact Hin].
    apply Permutation_map. now apply Permutation_sym.
Qed.

Lemma lookup_fold_assign k (entries t : Table) :
  NoDup (map fst entries) ->
  lookup k (fold_left (fun acc kv => assign (fst kv) (snd kv) acc) entries t)
  = merged k t entries.
Proof.
  unfold maps.merged. revert t.
  induction entries as [|[k0 v0] entries IH]; intros t Hnd; simpl; trivial.
  inversion Hnd as [|? ? Hnotin Hnd']; subst.
  rewrite (IH _ Hnd'), lookup_assign.
  destruct (K_eq_dec k k0) as [->|Hne]; trivial.
  apply lookup_None in Hnotin. now rewrite Hnotin.
Qed.

Lemma fold_assign_NoDup (entries t : Table) :
  NoDup (map fst t) ->
  NoDup (map fst (fold_left (fun acc kv => assign (fst kv) (snd kv) acc)
                    entries t)).
Proof.
  revert t. induction entries as [|[k0 v0] entries IH]; intros t Hnd;
    simpl; trivial.
  apply IH. now apply assign_NoDup.
Qed.

Lemma replace_nth_length {A} n (x : A) l :
  List.length (replace_nth n x l) = List.length l.
Proof.
  revert n. induction l as [|y l IH]; intros [|n]; simpl; trivial.
  now rewrite IH.
Qed.

Lemma nth_replace_nth {A} n m (x d : A) l :
  nth m (replace_nth n x l) d =
  if (m =? n) && (n <? List.length l) then x else nth m l d.
Proof.
  revert n m. induction l as [|y l IH]; intros n m; simpl.
  - destruct m, n; simpl; trivial; now rewrite ?andb_false_r.
  - destruct n as [|n], m as [|m]; simpl; trivial.
Qed.

Lemma nth_error_replace_nth {A} n m (x : A) l :
  nth_error (replace_nth n x l) m =
  if (m =? n) && (n <? List.length l) then Some x else nth_error l m.
Proof.
  revert n m. induction l as [|y l IH]; intros n m; simpl.
  - destruct m, n; simpl; trivial; now rewrite ?andb_false_r.
  - destruct n as [|n], m as [|m]; simpl; trivial.
Qed.

Lemma nth_error_replace_nth_same {A} n (x : A) l :
  n < List.length l -> nth_error (replace_nth n x l) n = Some x.
Proof.
  intros Hn. rewrite nth_error_replace_nth, Nat.eqb_refl.
  now destruct (Nat.ltb_spec n (List.length l)); [|lia].
Qed.

Lemma replace_nth_twice {A} n (x y : A) l :
  replace_nth n x (replace_nth n y l) = replace_nth n x l.
Proof.
  revert n. induction l as [|z l IH]; intros [|n]; simpl; trivial.
  now rewrite IH.
Qed.

Lemma replace_nth_same {A} n (d : A) l :
  replace_nth n (nth n l d) l = l.
Proof.
  revert n. induction l as [|y l IH]; intros [|n]; simpl; trivial.
  now rewrite IH.
Qed.

(** The loop of [maps.Copy] on a map that is not nil writes the entries,
    one after the other, into the one object of the destination. *)
Lemma copy_entries_object a (entries : Table) (mem : Memory) :
  a < List.length (objects mem) ->
  copy_entries (Some a) entries mem =
  Returns {| vars := vars mem;
             objects :=
               replace_nth a
                 (fold_left (fun acc kv => assign (fst kv) (snd kv) acc)
                    entries (nth a (objects mem) []))
                 (objects mem) |}.
Proof.
  revert mem. induction entries as [|[k v] entries IH]; intros mem Ha.
  - cbn. rewrite replace_nth_same. now destruct mem.
  - cbn [maps.copy_entries maps.assign_entry and_then].
    rewrite IH by (cbn; now rewrite replace_nth_length).
    cbn [vars objects maps.contents fold_left fst snd]. f_equal. f_equal.
    rewrite replace_nth_twice, nth_replace_nth, Nat.eqb_refl. cbn [andb].
    destruct (Nat.ltb_spec a (List.length (objects mem))); [trivial|lia].
Qed.

Lemma Forall_replace_nth {A} (P : A -> Prop) n x l :
  Forall P l -> P x -> Forall P (replace_nth n x l).
Proof.
  intros Hl Hx. revert n.
  induction Hl as [|y l Hy Hl IH]; intros [|n]; simpl;
    try constructor; auto.
Qed.

Lemma replace_nth_app_last {A} (x y : A) l :
  replace_nth (List.length l) x (l ++ [y]) = (l ++ [x])%list.
Proof. induction l as [|z l IH]; simpl; trivial. now rewrite IH. Qed.

Lemma contents_grow (value : maps.MapValue) (mem : Memory) vs t :
  valid value mem ->
  contents value {| vars := vs; objects := (objects mem ++ [t])%list |} =
  contents value mem.
Proof.
  destruct value as [a|]; trivial. cbn. intros Ha. now apply app_nth1.
Qed.

Lemma well_formed_valid (mem : Memory) x value :
  well_formed mem -> nth_error (vars mem) x = Some value -> valid value mem.
Proof.
  intros [Hv _] Hx. rewrite Forall_forall in Hv.
  apply Hv. eapply nth_error_In. exact Hx.
Qed.

Lemma well_formed_NoDup (mem : Memory) value :
  well_formed mem -> NoDup (map fst (contents value mem)).
Proof.
  intros [_ Ho]. destruct value as [a|]; cbn; [|constructor].
  destruct (Nat.ltb_spec a (List.length (objects mem))).
  - rewrite Forall_forall in Ho. apply Ho. now apply nth_In.
  - rewrite nth_overflow by lia. constructor.
Qed.

Section Update.
Variable order : Table -> list (K * V).
Hypothesis order_visits_all : forall t, Permutation (order t) t.

#[local] Abbreviation written old new :=
  (fold_left (fun acc kv => assign (fst kv) (snd kv) acc) (order new) old).

Lemma lookup_written k (old new : Table) :
  NoDup (map fst new) -> lookup k (written old new) = merged k old new.
Proof.
  intros Hnd.
  assert (Hnd' : NoDup (map fst (order new))).
  { eapply Permutation_NoDup; [|exact Hnd].
    apply Permutation_map, Permutation_sym, order_visits_all. }
  rewrite (lookup_fold_assign k (order new) old Hnd'). unfold maps.merged.
  now rewrite <- (lookup_Permutation k new (order new) Hnd)
    by (apply Permutation_sym, order_visits_all).
Qed.

(** [UpdateMap] on a variable that holds a map. *)
Lemma UpdateMap_some x a newMap (mem : Memory) :
  nth_error (vars mem) x = Some (Some a) ->
  a < List.length (objects mem) ->
  UpdateMap order (Some x) newMap mem =
  Returns {| vars := vars mem;
             objects := replace_nth a
                          (written (nth a (objects mem) [])
                             (contents newMap mem))
                          (objects mem) |}.
Proof.
  intros Hx Ha. unfold maps.UpdateMap, maps.InitMap, maps.maps_Copy.
  cbn [maps.deref]. rewrite Hx. cbn [and_then]. rewrite Hx. cbn [and_then].
  now apply copy_entries_object.
Qed.

(** [UpdateMap] on a variable that holds the nil map. *)
Lemma UpdateMap_nil x newMap (mem : Memory) :
  nth_error (vars mem) x = Some None ->
  valid newMap mem ->
  UpdateMap order (Some x) newMap mem =
  Returns {| vars := replace_nth x (Some (List.length (objects mem)))
                       (vars mem);
             objects := (objects mem
                         ++ [written [] (contents newMap mem)])%list |}.
Proof.
  intros Hx Hnew. unfold maps.UpdateMap, maps.InitMap, maps.maps_Copy.
  cbn [maps.deref]. rewrite Hx. cbn [and_then maps.deref vars].
  assert (Hlt : x < List.length (vars mem)).
  { apply nth_error_Some. congruence. }
  rewrite nth_error_replace_nth, Nat.eqb_refl.
  destruct (Nat.ltb_spec x (List.length (vars mem))); [|lia].
  cbn [andb and_then].
  rewrite copy_entries_object by (cbn; rewrite length_app; cbn; lia).
  cbn [vars objects]. rewrite contents_grow by trivial.
  rewrite app_nth2, Nat.sub_diag by lia. cbn [nth].
  now rewrite replace_nth_app_last.
Qed.

Lemma written_sound (mem : Memory) a newMap :
  well_formed mem -> a < List.length (objects mem) ->
  well_formed {| vars := vars mem;
                 objects := replace_nth a
                              (written (nth a (objects mem) [])
                                 (contents newMap mem))
                              (objects mem) |}.
Proof.
  intros [Hv Ho] Ha. split; cbn [vars objects].
  - eapply Forall_impl; [|exact Hv].
    intros [b|]; cbn; trivial. now rewrite replace_nth_length.
  - apply Forall_forall. intros t Hin.
    apply (In_nth _ _ []) in Hin as (b & Hb & <-).
    rewrite replace_nth_length in Hb. rewrite nth_replace_nth.
    rewrite Forall_forall in Ho.
    match goal with |- context [if ?c then _ else _] => destruct c end.
    + apply fold_assign_NoDup. apply Ho. now apply nth_In.
    + apply Ho. now apply nth_In.
Qed.

Lemma written_nil_sound (mem : Memory) x newMap :
  well_formed mem ->
  well_formed {| vars := replace_nth x (Some (List.length (objects mem)))
                           (vars mem);
                 objects := (objects mem
                             ++ [written [] (contents newMap mem)])%list |}.
Proof.
  intros [Hv Ho]. split; cbn [vars objects].
  - apply Forall_replace_nth.
    + eapply Forall_impl; [|exact Hv].
      intros [b|]; cbn; trivial. rewrite length_app. cbn. lia.
    + cbn. rewrite length_app. cbn. lia.
  - apply Forall_app. split; trivial.
    constructor; [|constructor]. apply fold_assign_NoDup. constructor.
Qed.

End Update.

(** X16. [UpdateMap] merges, the new map winning. On a pointer to a
    variable of a well-formed memory and a valid new map, for every order
    in which [range] may visit the entries: [UpdateMap] returns, the
    variable then holds a map that is not nil, and that map reads at every
    key what the new map had there, or else what the old map had; the
    memory is again well formed. On the nil pointer [UpdateMap]
    panics. *)
Theorem UpdateMap_merges (order : Table -> list (K * V)) x old newMap
  (mem : Memory) :
  (forall t, Permutation (order t) t) ->
  well_formed mem ->
  nth_error (vars mem) x = Some old ->
  valid newMap mem ->
  (exists mem' a,
      UpdateMap order (Some x) newMap mem = Returns mem'
      /\ nth_error (vars mem') x = Some (Some a)
      /\ (forall k, lookup k (contents (Some a) mem') =
                    merged k (contents old mem) (contents newMap mem))
      /\ well_formed mem')
  /\ UpdateMap order None newMap mem =
     Panics (PanicRuntime "invalid memory address or nil pointer dereference").
Proof.
  intros Horder Hwf Hx Hnew. split; [|reflexivity].
  pose proof (well_formed_valid mem x old Hwf Hx) as Hold.
  pose proof (well_formed_NoDup mem newMap Hwf) as Hnd.
  destruct old as [a|]; cbn in Hold.
  - eexists. exists a.
    split; [exact (UpdateMap_some order x a newMap mem Hx Hold)|].
    cbn [vars objects maps.contents]. split; [trivial|]. split.
    + intros k. rewrite nth_replace_nth, Nat.eqb_refl.
      destruct (Nat.ltb_spec a (List.length (objects mem))); [|lia].
      cbn [andb]. now apply lookup_written.
    + now apply written_sound.
  - eexists. exists (List.length (objects mem)).
    split; [exact (UpdateMap_nil order x newMap mem Hx Hnew)|].
    cbn [vars objects maps.contents]. split; [|split].
    + rewrite nth_error_replace_nth, Nat.eqb_refl.
      assert (x < List.length (vars mem)) by (apply nth_error_Some; congruence).
      destruct (Nat.ltb_spec x (List.length (vars mem))); [trivial|lia].
    + intros k. rewrite app_nth2, Nat.sub_diag by lia. cbn [nth].
      now apply lookup_written.
    + now apply written_nil_sound.
Qed.

(** X17. [UpdateMap] works in place on a map that is not nil. No variable
    changes, so the variable still holds the same map and every other
    variable that holds that map reads the merged entries; no map object is
    made, and every object but that of the old map is left as it was, the
    new map included when it is another map. *)
Theorem UpdateMap_in_place (order : Table -> list (K * V)) x a newMap
  (mem : Memory) :
  (forall t, Permutation (order t) t) ->
  well_formed mem ->
  nth_error (vars mem) x = Some (Some a) ->
  exists mem',
    UpdateMap order (Some x) newMap mem = Returns mem'
    /\ vars mem' = vars mem
    /\ List.length (objects mem') = List.length (objects mem)
    /\ (forall b, b <> a ->
                  contents (Some b) mem' = contents (Some b) mem)
    /\ (forall y k, nth_error (vars mem) y = Some (Some a) ->
                    nth_error (vars mem') y = Some (Some a)
                    /\ lookup k (contents (Some a) mem') =
                       merged k (contents (Some a) mem)
                         (contents newMap mem)).
Proof.
  intros Horder Hwf Hx.
  pose proof (well_formed_valid mem x _ Hwf Hx) as Ha. cbn in Ha.
  eexists. split; [exact (UpdateMap_some order x a newMap mem Hx Ha)|].
  cbn [vars objects maps.contents]. repeat split; trivial.
  - apply replace_nth_length.
  - intros b Hb. rewrite nth_replace_nth.
    destruct (Nat.eqb_spec b a); [congruence|reflexivity].
  - rewrite nth_replace_nth, Nat.eqb_refl.
    destruct (Nat.ltb_spec a (List.length (objects mem))); [|lia].
    cbn [andb]. apply lookup_written; trivial.
    now apply well_formed_NoDup.
Qed.

(** X18. [UpdateMap] on a nil map makes a new map object. Only the
    variable pointed to changes, to a reference no variable held before;
    every map object there was is left as it was, the new map included;
    and the object made reads at every key what the new map reads. *)
Theorem UpdateMap_on_nil_map (order : Table -> list (K * V)) x newMap
  (mem : Memory) :
  (forall t, Permutation (order t) t) ->
  well_formed mem ->
  nth_error (vars mem) x = Some None ->
  valid newMap mem ->
  exists mem',
    UpdateMap order (Some x) newMap mem = Returns mem'
    /\ nth_error (vars mem') x = Some (Some (List.length (objects mem)))
    /\ (forall y, y <> x -> nth_error (vars mem') y = nth_error (vars mem) y)
    /\ (forall y value, nth_error (vars mem) y = Some value ->
                        value <> Some (List.length (objects mem)))
    /\ (forall b, b < List.length (objects mem) ->
                  contents (Some b) mem' = contents (Some b) mem)
    /\ (forall k, lookup k (contents (Some (List.length (objects mem))) mem')
                  = lookup k (contents newMap mem)).
Proof.
  intros Horder Hwf Hx Hnew.
  assert (Hlt : x < List.length (vars mem))
    by (apply nth_error_Some; congruence).
  eexists. split; [exact (UpdateMap_nil order x newMap mem Hx Hnew)|].
  cbn [vars objects maps.contents]. repeat split.
  - rewrite nth_error_replace_nth, Nat.eqb_refl.
    destruct (Nat.ltb_spec x (List.length (vars mem))); [trivial|lia].
  - intros y Hy. rewrite nth_error_replace_nth.
    destruct (Nat.eqb_spec y x); [congruence|reflexivity].
  - intros y value Hy ->.
    pose proof (well_formed_valid mem y _ Hwf Hy) as Hv. cbn in Hv. lia.
  - intros b Hb. now apply app_nth1.
  - intros k. rewrite app_nth2, Nat.sub_diag by lia. cbn [nth].
    rewrite (lookup_written order Horder) by now apply well_formed_NoDup.
    unfold maps.merged. now destruct (lookup k (contents newMap mem)).
Qed.

(** X19. [InitMap] leaves a map that is not nil, and the whole memory,
    as they are; it turns a nil map into a new, empty map that no variable
    held before; a second [InitMap] changes nothing; on the nil pointer it
    panics. *)
Theorem InitMap_initializes x value (mem : Memory) :
  well_formed mem ->
  nth_error (vars mem) x = Some value ->
  (exists mem',
      InitMap (Some x) mem = Returns mem'
      /\ (value <> None -> mem' = mem)
      /\ (value = None ->
          nth_error (vars mem') x = Some (Some (List.length (objects mem)))
          /\ contents (Some (List.length (objects mem))) mem' = []
          /\ (forall y, y <> x ->
                        nth_error (vars mem') y = nth_error (vars mem) y)
          /\ (forall b, b < List.length (objects mem) ->
                        contents (Some b) mem' = contents (Some b) mem))
      /\ InitMap (Some x) mem' = Returns mem'
      /\ well_formed mem')
  /\ InitMap None mem =
     Panics (PanicRuntime "invalid memory address or nil pointer dereference").
Proof.
  intros Hwf Hx. split; [|reflexivity].
  assert (Hlt : x < List.length (vars mem))
    by (apply nth_error_Some; congruence).
  unfold maps.InitMap. cbn [maps.deref]. rewrite Hx. cbn [and_then].
  destruct value as [a|].
  - exists mem. rewrite Hx. cbn [and_then].
    split; [reflexivity|]. split; [reflexivity|].
    split; [discriminate|]. split; [reflexivity|exact Hwf].
  - eexists. split; [reflexivity|]. cbn [vars objects maps.contents].
    assert (Hnew : nth_error
                     (replace_nth x (Some (List.length (objects mem)))
                        (vars mem)) x =
                   Some (Some (List.length (objects mem)))).
    { now apply nth_error_replace_nth_same. }
    split; [congruence|].
    split; [intros _; split; [exact Hnew|split; [|split]]|split].
    + now rewrite app_nth2, Nat.sub_diag by lia.
    + intros y Hy. rewrite nth_error_replace_nth.
      destruct (Nat.eqb_spec y x); [congruence|reflexivity].
    + intros b Hb. now apply app_nth1.
    + now rewrite nth_error_replace_nth_same by trivial.
    + exact (written_nil_sound (fun t => t) mem x None Hwf).
Qed.

End Map_facts.

(* ===================================================================== *)
(** ** ParseString and its wrappers *)
(* ===================================================================== *)

Section Parser_facts.
Import parser.

Context {Float URL : Type} (float_zero : Float) (url_zero : URL).
Context (word_bits : Z).
Context (strconv_Atoi : string -> Z * error).
Context (strconv_ParseInt : string -> Z -> Z -> Z * error).
Context (strconv_ParseUint : string -> Z -> Z -> Z * error).
Context (strconv_ParseFloat : string -> Z -> Float * error).
Context (strconv_ParseBool : string -> bool * error).
Context (time_ParseDuration : string -> Z * error).
Context (url_Parse : string -> URL + Err).

#[local] Abbreviation zero_value := (parser.zero_value float_zero url_zero).
#[local] Abbreviation ParseString :=
  (parser.ParseString float_zero url_zero word_bits strconv_Atoi
     strconv_ParseInt strconv_ParseUint strconv_ParseFloat
     strconv_ParseBool time_ParseDuration url_Parse).
#[local] Abbreviation ParseStringOrZero :=
  (parser.ParseStringOrZero float_zero url_zero word_bits strconv_Atoi
     strconv_ParseInt strconv_ParseUint strconv_ParseFloat
     strconv_ParseBool time_ParseDuration url_Parse).
#[local] Abbreviation ParseStringWithDefault :=
  (parser.ParseStringWithDefault float_zero url_zero word_bits strconv_Atoi
     strconv_ParseInt strconv_ParseUint strconv_ParseFloat
     strconv_ParseBool time_ParseDuration url_Parse).
#[local] Abbreviation ParseStringOrDefault :=
  (parser.ParseStringOrDefault float_zero url_zero word_bits strconv_Atoi
     strconv_ParseInt strconv_ParseUint strconv_ParseFloat
     strconv_ParseBool time_ParseDuration url_Parse).

Lemma ParseString_error_zero T rawValue v e :
  ParseString T rawValue = (v, Some e) -> v = zero_value T.
Proof.
  unfold parser.ParseString.
  destruct T; try discriminate;
    try (destruct (url_Parse rawValue) as [u|e']);
    try match goal with
        | |- context [let (_, _) := ?p in _] => destruct p as [? [?|]]
        end;
    intros H; inversion H; reflexivity.
Qed.

(** X20. Whenever [ParseString] returns an error, the value it returns is
    the zero value of the type asked for, whatever value the function of
    the standard library returned together with its error; and for the
    type [string] it returns the input itself and no error. *)
Theorem ParseString_zero_on_error T rawValue :
  (forall v e, ParseString T rawValue = (v, Some e) -> v = zero_value T)
  /\ ParseString TString rawValue = (VString rawValue, None).
Proof.
  split; [|reflexivity]. intros v e. apply ParseString_error_zero.
Qed.

(** X21. The three wrappers agree with [ParseString]. When it returns no
    error, each returns the value it parsed; when it returns an error,
    [ParseStringWithDefault] returns the default with that same error,
    [ParseStringOrDefault] the default and [ParseStringOrZero] the zero
    value; so [ParseStringOrZero] is [ParseStringOrDefault] with the zero
    value for default, and [ParseStringOrDefault] is the value of
    [ParseStringWithDefault]. *)
Theorem ParseString_wrappers T rawValue dft :
  (forall v, ParseString T rawValue = (v, None) ->
     ParseStringOrZero T rawValue = v
     /\ ParseStringWithDefault T rawValue dft = (v, None)
     /\ ParseStringOrDefault T rawValue dft = v)
  /\ (forall v e, ParseString T rawValue = (v, Some e) ->
        ParseStringOrZero T rawValue = zero_value T
        /\ ParseStringWithDefault T rawValue dft = (dft, Some e)
        /\ ParseStringOrDefault T rawValue dft = dft)
  /\ ParseStringOrZero T rawValue =
     ParseStringOrDefault T rawValue (zero_value T)
  /\ ParseStringOrDefault T rawValue dft =
     fst (ParseStringWithDefault T rawValue dft)
  /\ snd (ParseStringWithDefault T rawValue dft) =
     snd (ParseString T rawValue).
Proof.
  unfold parser.ParseStringOrZero, parser.ParseStringWithDefault,
    parser.ParseStringOrDefault.
  destruct (ParseString T rawValue) as [v [e|]] eqn:Hparse.
  - pose proof (ParseString_error_zero T rawValue v e Hparse) as ->.
    split; [intros v' H; discriminate H|].
    split; [intros v' e' [= <- <-]; repeat split|repeat split].
  - split; [intros v' [= <-]; repeat split|].
    split; [intros v' e' H; discriminate H|repeat split].
Qed.

End Parser_facts.

(* ===================================================================== *)
(** ** Further concrete runs *)
(* ===================================================================== *)

Lemma HandleError_false_only_unmatched_run :
  HandleError (Some ErrTimeout) [OnSentinelError (Some ErrNotFound) keep] =
    ([Tested (OnSentinelError (Some ErrNotFound) keep)],
     Returns (false, Some ErrTimeout))
  /\ none_matches (Some ErrTimeout) [OnSentinelError (Some ErrNotFound) keep].
Proof.
  assert (H : HandleError (Some ErrTimeout)
                [OnSentinelError (Some ErrNotFound) keep] =
              ([Tested (OnSentinelError (Some ErrNotFound) keep)],
               Returns (false, Some ErrTimeout))) by reflexivity.
  split; [exact H|].
  destruct (HandleError_false_only_unmatched _ _ _ _ H) as (_ & _ & Hn & _).
  exact Hn.
Defined.

Lemma HandleError_app_run :
  none_matches (Some lookup) [OnSentinelError (Some ErrTimeout) keep]
  /\ outcome (HandleError (Some lookup)
                ([OnSentinelError (Some ErrTimeout) keep]
                 ++ [OnSentinelError (Some ErrNotFound)
                       (replace_with (Some R))])) =
     Returns (true, Some R)
  /\ outcome (HandleError (Some lookup)
                [OnSentinelError (Some ErrNotFound) (replace_with None)])
     <> Returns (false, Some lookup)
  /\ HandleError (Some lookup)
       ([OnSentinelError (Some ErrNotFound) (replace_with None)]
        ++ [typed_nil keep]) =
     HandleError (Some lookup)
       [OnSentinelError (Some ErrNotFound) (replace_with None)].
Proof.
  assert (Hnone : none_matches (Some lookup)
                    [OnSentinelError (Some ErrTimeout) keep])
    by (repeat constructor).
  assert (Hstop : outcome (HandleError (Some lookup)
                    [OnSentinelError (Some ErrNotFound) (replace_with None)])
                  <> Returns (false, Some lookup)) by discriminate.
  split; [exact Hnone|]. split; [|split; [exact Hstop|]].
  - destruct (HandleError_app lookup
                [OnSentinelError (Some ErrTimeout) keep]
                [OnSentinelError (Some ErrNotFound) (replace_with (Some R))])
      as [Happ _].
    rewrite (Happ Hnone). reflexivity.
  - destruct (HandleError_app lookup
                [OnSentinelError (Some ErrNotFound) (replace_with None)]
                [typed_nil keep]) as [_ Hkeep].
    exact (Hkeep Hstop).
Defined.


(** A sentinel found two levels down a tree of joined errors, and the
    comparison with a sentinel that holds a slice behind an interface,
    which panics at the second element of the chain. *)
Lemma sentinel_matcher_matches_iff_run :
  safe_sentinel ErrNotFound = true
  /\ Exists (sentinel_hit ErrNotFound) (chain joined)
  /\ matches (Some joined) (OnSentinelError (Some ErrNotFound) keep) =
     Returns true
  /\ matches (Some (wrap 80 "load" withTags))
       (OnSentinelError (Some withTags) keep) =
     Panics (PanicRuntime "comparing uncomparable type []string")
  /\ exists S pre x post,
      Some withTags = Some S
      /\ chain (wrap 80 "load" withTags) = (pre ++ x :: post)%list
      /\ Forall (sentinel_miss S) pre
      /\ sentinel_crash S x
           (PanicRuntime "comparing uncomparable type []string").
Proof.
  assert (Hsafe : safe_sentinel ErrNotFound = true) by reflexivity.
  assert (Hex : Exists (sentinel_hit ErrNotFound) (chain joined)).
  { cbn [chain joined].
    repeat first [ apply Exists_cons_hd; left; reflexivity
                 | apply Exists_cons_tl ]. }
  assert (Hp : matches (Some (wrap 80 "load" withTags))
                 (OnSentinelError (Some withTags) keep) =
               Panics (PanicRuntime "comparing uncomparable type []string"))
    by reflexivity.
  destruct (sentinel_matcher_matches_iff joined (Some ErrNotFound) keep)
    as (_ & _ & Hs & _).
  destruct (Hs ErrNotFound eq_refl Hsafe) as [[_ Hfound] _].
  destruct (sentinel_matcher_matches_iff (wrap 80 "load" withTags)
              (Some withTags) keep) as (_ & Hcrash & _).
  destruct (Hcrash (PanicRuntime "comparing uncomparable type []string"))
    as [Hwhere _].
  split; [exact Hsafe|]. split; [exact Hex|].
  split; [exact (Hfound Hex)|]. split; [exact Hp|].
  exact (Hwhere Hp).
Defined.


Lemma HandleError_panics_only_in_handler_run :
  Forall well_built [OnSentinelError (Some ErrTimeout) keep;
                     OnSentinelError (Some ErrNotFound) boom]
  /\ Forall safe_matcher [OnSentinelError (Some ErrTimeout) keep;
                          OnSentinelError (Some ErrNotFound) boom]
  /\ outcome (HandleError (Some lookup)
                [OnSentinelError (Some ErrTimeout) keep;
                 OnSentinelError (Some ErrNotFound) boom]) =
     Panics (PanicString "boom")
  /\ exists pre m post,
      [OnSentinelError (Some ErrTimeout) keep;
       OnSentinelError (Some ErrNotFound) boom] = (pre ++ m :: post)%list
      /\ first_match (Some lookup) pre m
      /\ call (Handler m) (Some lookup) = Panics (PanicString "boom").
Proof.
  assert (Hb : Forall well_built [OnSentinelError (Some ErrTimeout) keep;
                                  OnSentinelError (Some ErrNotFound) boom]).
  { apply Forall_cons; [left; eexists; eexists; reflexivity|].
    apply Forall_cons; [left; eexists; eexists; reflexivity|].
    apply Forall_nil. }
  assert (Hs : Forall safe_matcher [OnSentinelError (Some ErrTimeout) keep;
                                    OnSentinelError (Some ErrNotFound) boom]).
  { apply Forall_cons; [intros S _ [= <-]; reflexivity|].
    apply Forall_cons; [intros S _ [= <-]; reflexivity|].
    apply Forall_nil. }
  assert (Hp : outcome (HandleError (Some lookup)
                          [OnSentinelError (Some ErrTimeout) keep;
                           OnSentinelError (Some ErrNotFound) boom]) =
               Panics (PanicString "boom")) by reflexivity.
  split; [exact Hb|]. split; [exact Hs|]. split; [exact Hp|].
  destruct (HandleError_panics_only_in_handler lookup _ _ Hb Hp)
    as [_ Hhandler].
  exact (Hhandler Hs).
Defined.

(** A handler of type [func(error) error] handed to [OnCustomError]. *)
Lemma typed_builder_at_interface_panics_run :
  none_matches (Some ErrNotFound) [OnSentinelError (Some ErrTimeout) keep]
  /\ outcome (HandleError (Some ErrNotFound)
                ([OnSentinelError (Some ErrTimeout) keep]
                 ++ OnCustomError (InterfaceTarget (fun _ => true))
                      (Some (fun e => Returns (Some e)))
                 :: [OnSentinelError (Some ErrNotFound) keep])) =
     Panics (PanicString "reflect: New(nil)").
Proof.
  assert (Hnone : none_matches (Some ErrNotFound)
                    [OnSentinelError (Some ErrTimeout) keep])
    by (repeat constructor).
  split; [exact Hnone|].
  destruct (typed_builder_at_interface_panics ErrNotFound (fun _ => true)
              (Some (fun e => Returns (Some e)))
              [OnSentinelError (Some ErrTimeout) keep]
              [OnSentinelError (Some ErrNotFound) keep] Hnone) as [Hp _].
  exact Hp.
Defined.

Lemma variants_agree_when_handled_run :
  HandleError (Some lookup)
    [OnSentinelError (Some ErrNotFound) (replace_with (Some R))] =
    ([Tested (OnSentinelError (Some ErrNotFound) (replace_with (Some R)));
      Invoked (OnSentinelError (Some ErrNotFound) (replace_with (Some R)))
        (Some lookup)],
     Returns (true, Some R))
  /\ outcome (HandleErrorOrDie (Some lookup)
                [OnSentinelError (Some ErrNotFound) (replace_with (Some R))])
     = Returns (Some R)
  /\ outcome (HandleErrorOrDefault (Some lookup) boom
                [OnSentinelError (Some ErrNotFound) (replace_with (Some R))])
     = Returns (Some R).
Proof.
  assert (H : HandleError (Some lookup)
                [OnSentinelError (Some ErrNotFound) (replace_with (Some R))]
              = ([Tested (OnSentinelError (Some ErrNotFound)
                            (replace_with (Some R)));
                  Invoked (OnSentinelError (Some ErrNotFound)
                             (replace_with (Some R))) (Some lookup)],
                 Returns (true, Some R))) by reflexivity.
  split; [exact H|].
  destruct (variants_agree_when_handled _ _ _ _ H) as (Hdie & Hdft & _).
  split; [now rewrite Hdie|now rewrite (Hdft boom)].
Defined.

Lemma variants_pass_panics_through_run :
  HandleError (Some ErrNotFound) [typed_nil keep] =
    ([Tested (typed_nil keep)], Panics (PanicString "reflect: New(nil)"))
  /\ HandleErrorOrDefault (Some ErrNotFound) keep [typed_nil keep] =
     ([Tested (typed_nil keep)], Panics (PanicString "reflect: New(nil)")).
Proof.
  assert (H : HandleError (Some ErrNotFound) [typed_nil keep] =
              ([Tested (typed_nil keep)],
               Panics (PanicString "reflect: New(nil)"))) by reflexivity.
  split; [exact H|].
  destruct (variants_pass_panics_through _ _ _ _ H) as (_ & Hdft & _).
  exact (Hdft keep).
Defined.

Lemma Cycle_round_robin_run :
  [1; 2; 3]%nat <> []
  /\ slice.calls 0%nat (fun r n => (0%nat, r)) 7
       (slice.Cycle (Rand:=unit) [1; 2; 3]%nat) =
     Returns ([1; 2; 3; 1; 2; 3; 1]%nat, slice.CycleNext [1; 2; 3]%nat 1).
Proof.
  assert (Hne : [1; 2; 3]%nat <> []) by discriminate.
  split; [exact Hne|].
  destruct (Cycle_round_robin 0%nat (fun (r : unit) (n : nat) => (0%nat, r))
              [1; 2; 3]%nat Hne) as [Hn _].
  rewrite (Hn 7%nat). reflexivity.
Defined.

(** A generator that counts: [IntN(n)] is the state modulo [n]. *)
Lemma RandomCycle_rounds_run :
  (forall r n : nat, (0 < n)%nat -> (fst (r mod n, S r) < n)%nat)
  /\ (2 <= List.length [10; 20; 30]%nat)%nat
  /\ exists f,
      slice.calls 0%nat (fun r n => (r mod n, S r)%nat) 3
        (slice.RandomCycle (fun r n => (r mod n, S r)%nat) 0%nat (Some 7%nat)
           [10; 20; 30]%nat) =
      Returns (slice.rotate 1 [10; 20; 30]%nat, f).
Proof.
  assert (Hr : forall r n : nat,
             (0 < n)%nat -> (fst (r mod n, S r) < n)%nat).
  { intros r n Hn. cbn [fst]. apply Nat.mod_upper_bound. lia. }
  assert (Hl : (2 <= List.length [10; 20; 30]%nat)%nat) by (cbn; lia).
  split; [exact Hr|]. split; [exact Hl|].
  destruct (RandomCycle_rounds 0%nat (fun r n => (r mod n, S r)%nat)
              0%nat (Some 7%nat) [10; 20; 30]%nat Hr Hl) as [_ Hround].
  assert (Hs : slice.round_start [10; 20; 30]%nat
                 (slice.RandomCycle (fun r n => (r mod n, S r)%nat) 0%nat
                    (Some 7%nat) [10; 20; 30]%nat) 1).
  { exists 8%nat. split; [reflexivity|cbn; lia]. }
  destruct (Hround _ _ Hs) as (f & s' & Hcalls & _).
  exists f. exact Hcalls.
Defined.


(** A memory with three variables, the first and the third holding the
    same map, the second the nil map, and a second map object; [range]
    visits the entries in reverse. *)
Lemma UpdateMap_merges_run :
  (forall t : list (nat * nat), Permutation (rev t) t)
  /\ maps.well_formed
       (maps.MkMemory [Some 0; None; Some 0]%nat
          [[(1, 10); (2, 20)]; [(2, 22); (3, 30)]]%nat)
  /\ nth_error [Some 0; None; Some 0]%nat 0 = Some (Some 0%nat)
  /\ maps.valid (Some 1%nat)
       (maps.MkMemory [Some 0; None; Some 0]%nat
          [[(1, 10); (2, 20)]; [(2, 22); (3, 30)]]%nat)
  /\ exists mem' a,
      maps.UpdateMap Nat.eq_dec (@rev (nat * nat)) (Some 0%nat) (Some 1%nat)
        (maps.MkMemory [Some 0; None; Some 0]%nat
           [[(1, 10); (2, 20)]; [(2, 22); (3, 30)]]%nat) = Returns mem'
      /\ maps.lookup Nat.eq_dec 2%nat (maps.contents (Some a) mem')
         = Some 22%nat
      /\ maps.lookup Nat.eq_dec 1%nat (maps.contents (Some a) mem')
         = Some 10%nat.
Proof.
  assert (Ho : forall t : list (nat * nat), Permutation (rev t) t).
  { intros t. apply Permutation_sym, Permutation_rev. }
  assert (Hwf : maps.well_formed
                  (maps.MkMemory [Some 0; None; Some 0]%nat
                     [[(1, 10); (2, 20)]; [(2, 22); (3, 30)]]%nat)).
  { split; cbn.
    - repeat constructor.
    - repeat constructor; cbn; intuition discriminate. }
  assert (Hx : nth_error [Some 0; None; Some 0]%nat 0 = Some (Some 0%nat))
    by reflexivity.
  assert (Hn : maps.valid (Some 1%nat)
                 (maps.MkMemory [Some 0; None; Some 0]%nat
                    [[(1, 10); (2, 20)]; [(2, 22); (3, 30)]]%nat))
    by (cbn; lia).
  split; [exact Ho|]. split; [exact Hwf|]. split; [exact Hx|].
  split; [exact Hn|].
  destruct (UpdateMap_merges Nat.eq_dec (@rev (nat * nat)) 0%nat
              (Some 0%nat) (Some 1%nat) _ Ho Hwf Hx Hn)
    as [(mem' & a & Hrun & _ & Hread & _) _].
  exists mem', a. split; [exact Hrun|].
  split; [exact (Hread 2%nat)|exact (Hread 1%nat)].
Defined.

Lemma UpdateMap_in_place_run :
  (forall t : list (nat * nat), Permutation (rev t) t)
  /\ maps.well_formed
       (maps.MkMemory [Some 0; None; Some 0]%nat
          [[(1, 10); (2, 20)]; [(2, 22); (3, 30)]]%nat)
  /\ nth_error [Some 0; None; Some 0]%nat 0 = Some (Some 0%nat)
  /\ exists mem',
      maps.UpdateMap Nat.eq_dec (@rev (nat * nat)) (Some 0%nat) (Some 1%nat)
        (maps.MkMemory [Some 0; None; Some 0]%nat
           [[(1, 10); (2, 20)]; [(2, 22); (3, 30)]]%nat) = Returns mem'
      /\ nth_error (maps.vars mem') 2 = Some (Some 0%nat)
      /\ maps.lookup Nat.eq_dec 3%nat (maps.contents (Some 0%nat) mem')
         = Some 30%nat
      /\ maps.contents (Some 1%nat) mem' = [(2, 22); (3, 30)]%nat.
Proof.
  assert (Ho : forall t : list (nat * nat), Permutation (rev t) t).
  { intros t. apply Permutation_sym, Permutation_rev. }
  assert (Hwf : maps.well_formed
                  (maps.MkMemory [Some 0; None; Some 0]%nat
                     [[(1, 10); (2, 20)]; [(2, 22); (3, 30)]]%nat)).
  { split; cbn.
    - repeat constructor.
    - repeat constructor; cbn; intuition discriminate. }
  assert (Hx : nth_error [Some 0; None; Some 0]%nat 0 = Some (Some 0%nat))
    by reflexivity.
  split; [exact Ho|]. split; [exact Hwf|]. split; [exact Hx|].
  destruct (UpdateMap_in_place Nat.eq_dec (@rev (nat * nat)) 0%nat 0%nat
              (Some 1%nat) _ Ho Hwf Hx)
    as (mem' & Hrun & Hvars & _ & Hframe & Halias).
  exists mem'. split; [exact Hrun|].
  assert (Hy : nth_error [Some 0; None; Some 0]%nat 2 = Some (Some 0%nat))
    by reflexivity.
  split; [exact (proj1 (Halias 2%nat 3%nat Hy))|].
  split; [exact (proj2 (Halias 2%nat 3%nat Hy))|].
  apply (Hframe 1%nat). discriminate.
Defined.

Lemma UpdateMap_on_nil_map_run :
  (forall t : list (nat * nat), Permutation (rev t) t)
  /\ maps.well_formed
       (maps.MkMemory [Some 0; None; Some 0]%nat
          [[(1, 10); (2, 20)]; [(2, 22); (3, 30)]]%nat)
  /\ nth_error [Some 0; None; Some 0]%nat 1 = Some None
  /\ maps.valid (Some 1%nat)
       (maps.MkMemory [Some 0; None; Some 0]%nat
          [[(1, 10); (2, 20)]; [(2, 22); (3, 30)]]%nat)
  /\ exists mem',
      maps.UpdateMap Nat.eq_dec (@rev (nat * nat)) (Some 1%nat) (Some 1%nat)
        (maps.MkMemory [Some 0; None; Some 0]%nat
           [[(1, 10); (2, 20)]; [(2, 22); (3, 30)]]%nat) = Returns mem'
      /\ nth_error (maps.vars mem') 1 = Some (Some 2%nat)
      /\ maps.lookup Nat.eq_dec 3%nat (maps.contents (Some 2%nat) mem')
         = Some 30%nat.
Proof.
  assert (Ho : forall t : list (nat * nat), Permutation (rev t) t).
  { intros t. apply Permutation_sym, Permutation_rev. }
  assert (Hwf : maps.well_formed
                  (maps.MkMemory [Some 0; None; Some 0]%nat
                     [[(1, 10); (2, 20)]; [(2, 22); (3, 30)]]%nat)).
  { split; cbn.
    - repeat constructor.
    - repeat constructor; cbn; intuition discriminate. }
  assert (Hx : nth_error [Some 0; None; Some 0]%nat 1 = @Some (option nat) None)
    by reflexivity.
  assert (Hn : maps.valid (Some 1%nat)
                 (maps.MkMemory [Some 0; None; Some 0]%nat
                    [[(1, 10); (2, 20)]; [(2, 22); (3, 30)]]%nat))
    by (cbn; lia).
  split; [exact Ho|]. split; [exact Hwf|]. split; [exact Hx|].
  split; [exact Hn|].
  destruct (UpdateMap_on_nil_map Nat.eq_dec (@rev (nat * nat)) 1%nat
              (Some 1%nat) _ Ho Hwf Hx Hn)
    as (mem' & Hrun & Hvar & _ & _ & _ & Hread).
  exists mem'. split; [exact Hrun|]. split; [exact Hvar|].
  exact (Hread 3%nat).
Defined.

Lemma InitMap_initializes_run :
  maps.well_formed
    (maps.MkMemory [Some 0; None; Some 0]%nat
       [[(1, 10); (2, 20)]; [(2, 22); (3, 30)]]%nat)
  /\ nth_error [Some 0; None; Some 0]%nat 1 = Some None
  /\ exists mem',
      maps.InitMap (Some 1%nat)
        (maps.MkMemory [Some 0; None; Some 0]%nat
           [[(1, 10); (2, 20)]; [(2, 22); (3, 30)]]%nat) = Returns mem'
      /\ nth_error (maps.vars mem') 1 = Some (Some 2%nat)
      /\ maps.contents (Some 2%nat) mem' = [].
Proof.
  assert (Hwf : maps.well_formed
                  (maps.MkMemory [Some 0; None; Some 0]%nat
                     [[(1, 10); (2, 20)]; [(2, 22); (3, 30)]]%nat)).
  { split; cbn.
    - repeat constructor.
    - repeat constructor; cbn; intuition discriminate. }
  assert (Hx : nth_error [Some 0; None; Some 0]%nat 1 = @Some (option nat) None)
    by reflexivity.
  split; [exact Hwf|]. split; [exact Hx|].
  destruct (InitMap_initializes Nat.eq_dec 1%nat None _ Hwf Hx)
    as [(mem' & Hrun & _ & Hnil & _) _].
  exists mem'. split; [exact Hrun|].
  destruct (Hnil eq_refl) as (Hvar & Hempty & _).
  split; [exact Hvar|exact Hempty].
Defined.

(** A [strconv.ParseInt] that answers ["128"] at 8 bits the way the
    library does: the largest value of the type and a range error. *)
Lemma ParseString_zero_on_error_run :
  parser.ParseString tt tt 64%Z
    (fun _ => (0%Z, None))
    (fun _ _ _ => (127%Z, Some (errors_New 1 "value out of range")))
    (fun _ _ _ => (0%Z, None))
    (fun _ _ => (tt, None))
    (fun _ => (false, None))
    (fun _ => (0%Z, None))
    (fun _ => inl tt)
    parser.TInt8 "128" =
  (parser.VInt8 0%Z, Some (errors_New 1 "value out of range")).
Proof.
  destruct (parser.ParseString tt tt 64%Z
              (fun _ => (0%Z, None))
              (fun _ _ _ => (127%Z, Some (errors_New 1 "value out of range")))
              (fun _ _ _ => (0%Z, None))
              (fun _ _ => (tt, None))
              (fun _ => (false, None))
              (fun _ => (0%Z, None))
              (fun _ => inl tt)
              parser.TInt8 "128") as [v err] eqn:Hparse.
  assert (Herr : err = Some (errors_New 1 "value out of range")).
  { cbn in Hparse. now injection Hparse as _ <-. }
  subst err.
  destruct (ParseString_zero_on_error tt tt 64%Z
              (fun _ => (0%Z, None))
              (fun _ _ _ => (127%Z, Some (errors_New 1 "value out of range")))
              (fun _ _ _ => (0%Z, None))
              (fun _ _ => (tt, None))
              (fun _ => (false, None))
              (fun _ => (0%Z, None))
              (fun _ => inl tt)
              parser.TInt8 "128") as [Hzero _].
  now rewrite (Hzero v _ Hparse).
Defined.

Lemma ParseString_wrappers_run :
  parser.ParseString tt tt 64%Z
    (fun _ => (0%Z, None))
    (fun _ _ _ => (127%Z, Some (errors_New 1 "value out of range")))
    (fun _ _ _ => (0%Z, None))
    (fun _ _ => (tt, None))
    (fun _ => (false, None))
    (fun _ => (0%Z, None))
    (fun _ => inl tt)
    parser.TInt8 "128" =
  (parser.VInt8 0%Z, Some (errors_New 1 "value out of range"))
  /\ parser.ParseStringOrDefault tt tt 64%Z
       (fun _ => (0%Z, None))
       (fun _ _ _ => (127%Z, Some (errors_New 1 "value out of range")))
       (fun _ _ _ => (0%Z, None))
       (fun _ _ => (tt, None))
       (fun _ => (false, None))
       (fun _ => (0%Z, None))
       (fun _ => inl tt)
       parser.TInt8 "128" (parser.VInt8 5%Z) = parser.VInt8 5%Z.
Proof.
  assert (Hparse : parser.ParseString tt tt 64%Z
                     (fun _ => (0%Z, None))
                     (fun _ _ _ =>
                        (127%Z, Some (errors_New 1 "value out of range")))
                     (fun _ _ _ => (0%Z, None))
                     (fun _ _ => (tt, None))
                     (fun _ => (false, None))
                     (fun _ => (0%Z, None))
                     (fun _ => inl tt)
                     parser.TInt8 "128" =
                   (parser.VInt8 0%Z,
                    Some (errors_New 1 "value out of range")))
    by reflexivity.
  split; [exact Hparse|].
  destruct (ParseString_wrappers tt tt 64%Z
              (fun _ => (0%Z, None))
              (fun _ _ _ => (127%Z, Some (errors_New 1 "value out of range")))
              (fun _ _ _ => (0%Z, None))
              (fun _ _ => (tt, None))
              (fun _ => (false, None))
              (fun _ => (0%Z, None))
              (fun _ => inl tt)
              parser.TInt8 "128" (parser.VInt8 5%Z)) as (_ & Herr & _).
  exact (proj2 (proj2 (Herr _ _ Hparse))).
Defined.
